(** * Custom tool loading in talkcody: a shallow embedding

    The development follows the TypeScript sources of the custom tool
    subsystem:

    - [src/stores/custom-tool-permission-store.ts]   (module [PermissionStore])
    - [src/services/tools/custom-tool-permission.ts] (module [Permission])
    - [src/services/tools/custom-tool-registry.tsx]  (module [Registry])
    - [src/lib/custom-tool-sdk/import-map.ts]        (module [ImportMap])
    - [src/services/tools/custom-tool-compiler.ts]   (module [Compiler])
    - [src/services/tools/custom-tool-loader.ts]     (module [Loader]; the
      second file kept in [src/services/tools/custom-tool-refresh.ts])

    JavaScript [Map]s and plain objects used as dictionaries are finite maps
    with string keys.  Every [async] function runs to completion between two
    suspension points of the single-threaded scheduler, so [await] is
    sequencing: a function that reads or writes module-level state takes the
    state and returns the new one, and a function that can reject returns a
    [result]. *)

From Stdlib Require Import ZArith Ascii String.
From stdpp Require Import base option list gmap strings.

Set Warnings "-register-all".
Local Open Scope Z_scope.

(** ** JavaScript values and exceptions *)

(** The values that flow through the loader.  Functions and host modules
    are opaque and carry a label; objects carry their own enumerable
    properties.  [VObject] is an ordinary object: properties can be added
    to it and each of them can be assigned.  [VGuarded] is an object that
    [Object.freeze], [Object.seal], [Object.preventExtensions] or
    [Object.defineProperty] has been applied to: [extensible] tells whether
    properties can still be added, [readOnly] lists the own properties that
    cannot be assigned (all of them for a frozen object, none for a sealed
    one). *)
Inductive Value : Type :=
  | VUndefined
  | VNull
  | VBool (b : bool)
  | VNumber (n : Z)
  | VString (s : string)
  | VFunction (label : string)
  | VModule (specifier : string)
  | VObject (fields : list (string * Value))
  | VGuarded (extensible : bool) (readOnly : list string) (fields : list (string * Value)).

(** [Boolean(v)] *)
Definition truthy (v : Value) : bool :=
  match v with
  | VUndefined | VNull => false
  | VBool b => b
  | VNumber n => negb (n =? 0)
  | VString s => negb (String.eqb s "")
  | VFunction _ | VModule _ | VObject _ | VGuarded _ _ _ => true
  end.

(** [v === undefined || v === null], the test behind [??] and [?.] *)
Definition nullish (v : Value) : bool :=
  match v with
  | VUndefined | VNull => true
  | _ => false
  end.

(** [typeof v === 'object'] *)
Definition typeof_object (v : Value) : bool :=
  match v with
  | VNull | VModule _ | VObject _ | VGuarded _ _ _ => true
  | _ => false
  end.

(** [typeof v === 'string'] *)
Definition typeof_string (v : Value) : bool :=
  match v with
  | VString _ => true
  | _ => false
  end.

Fixpoint assoc (k : string) (fields : list (string * Value)) : option Value :=
  match fields with
  | [] => None
  | (k', v) :: rest => if String.eqb k k' then Some v else assoc k rest
  end.

(** Property read [v.k] on a value that is not [null] or [undefined]. *)
Definition get_field (k : string) (v : Value) : Value :=
  match v with
  | VObject fields | VGuarded _ _ fields => default VUndefined (assoc k fields)
  | _ => VUndefined
  end.

(** Property write [v.k = x] on an ordinary object: an existing property is
    updated in place, a new one is added last. *)
Fixpoint set_assoc (k : string) (x : Value) (fields : list (string * Value))
  : list (string * Value) :=
  match fields with
  | [] => [(k, x)]
  | (k', v) :: rest =>
      if String.eqb k k' then (k', x) :: rest else (k', v) :: set_assoc k x rest
  end.

(** What a [throw] carries: an [Error] with its message; any other value
    that [String(value)] can convert, kept as the text it gives; or a value
    that [String(value)] cannot convert, such as [Object.create(null)],
    which has neither [toString] nor [valueOf]. *)
Inductive Thrown : Type :=
  | ThrownError (message : string)
  | ThrownOther (rendering : string)
  | ThrownUnprintable.

(** The outcome of a call that can throw, and of an awaited promise. *)
Inductive result (A : Type) : Type :=
  | Ok (a : A)
  | Throw (e : Thrown).
Arguments Ok {A} a.
Arguments Throw {A} e.

(** The [TypeError] of [String(value)] on a value without [toString] and
    [valueOf]. *)
Definition cannotConvert : Thrown :=
  ThrownError "Cannot convert object to primitive value".

(** [error instanceof Error ? error.message : String(error)]: the
    conversion itself throws on a value it cannot convert. *)
Definition errorMessage (e : Thrown) : result string :=
  match e with
  | ThrownError message => Ok message
  | ThrownOther rendering => Ok rendering
  | ThrownUnprintable => Throw cannotConvert
  end.

Definition is_ok {A} (r : result A) : bool :=
  match r with Ok _ => true | Throw _ => false end.

(** ** JavaScript string methods *)

Module JsString.

Definition chars (s : string) : list ascii := String.list_ascii_of_string s.
Definition of_chars (l : list ascii) : string := String.string_of_list_ascii l.

(** [s.startsWith(p)] *)
Definition startsWith (s p : string) : bool :=
  bool_decide (chars p `prefix_of` chars s).

(** [s.endsWith(p)] *)
Definition endsWith (s p : string) : bool :=
  bool_decide (chars p `suffix_of` chars s).

Definition is_upper (c : ascii) : bool :=
  let n := nat_of_ascii c in (65 <=? n)%nat && (n <=? 90)%nat.
Definition is_lower (c : ascii) : bool :=
  let n := nat_of_ascii c in (97 <=? n)%nat && (n <=? 122)%nat.

(** [toUpperCase] and [toLowerCase] on one code unit below 128 *)
Definition upper (c : ascii) : ascii :=
  if is_lower c then ascii_of_nat (nat_of_ascii c - 32) else c.
Definition lower (c : ascii) : ascii :=
  if is_upper c then ascii_of_nat (nat_of_ascii c + 32) else c.

Definition toLowerCase (s : string) : string := of_chars (lower <$> chars s).

End JsString.

(** ** The permission store ([custom-tool-permission-store.ts]) *)

(** [type CustomToolPermission = 'fs' | 'net' | 'command'] *)
Inductive CustomToolPermission : Type := Fs | Net | Command.

Global Instance CustomToolPermission_eq_dec : EqDecision CustomToolPermission.
Proof. solve_decision. Defined.

Module PermissionStore.

Record CustomToolPermissionGrant : Type := mkGrant {
  toolName : string;
  permissions : list CustomToolPermission;
  grantedAt : Z;
}.

(** The state of the zustand store: [grants: Map<string, Grant>]. *)
Record CustomToolPermissionState : Type := mkState {
  grants : gmap string CustomToolPermissionGrant;
}.

(** [create(...)] starts with [grants: new Map()]. *)
Definition initial : CustomToolPermissionState := {| grants := ∅ |}.

(** [grantPermission]: copy the map, [next.set(toolName, {toolName,
    permissions, grantedAt: Date.now()})], install the copy.  [now] is the
    value [Date.now()] returns during the call. *)
Definition grantPermission (tool : string) (perms : list CustomToolPermission)
    (now : Z) (state : CustomToolPermissionState) : CustomToolPermissionState :=
  let next := grants state in
  let next := <[tool := {| toolName := tool; permissions := perms; grantedAt := now |}]> next in
  {| grants := next |}.

(** [revokePermission]: copy the map, [next.delete(toolName)]. *)
Definition revokePermission (tool : string) (state : CustomToolPermissionState)
    : CustomToolPermissionState :=
  let next := grants state in
  let next := delete tool next in
  {| grants := next |}.

(** [getGrant]: [get().grants.get(toolName)], [None] for [undefined]. *)
Definition getGrant (tool : string) (state : CustomToolPermissionState)
    : option CustomToolPermissionGrant :=
  grants state !! tool.

End PermissionStore.

(** ** Permission checks ([custom-tool-permission.ts]) *)

Module Permission.
Import PermissionStore.

Record PermissionCheckResult : Type := mkCheck {
  allowed : bool;
  missing : list CustomToolPermission;
}.

(** [grant.permissions.includes(permission)] *)
Definition includes (perms : list CustomToolPermission) (p : CustomToolPermission) : bool :=
  bool_decide (p ∈ perms).

Definition checkCustomToolPermissions (tool : string)
    (requested : list CustomToolPermission) (state : CustomToolPermissionState)
    : PermissionCheckResult :=
  if (length requested =? 0)%nat then {| allowed := true; missing := [] |}
  else
    match getGrant tool state with
    | None => {| allowed := false; missing := requested |}
    | Some grant =>
        let missing :=
          List.filter (fun permission => negb (includes (permissions grant) permission))
                      requested in
        if (0 <? length missing)%nat then {| allowed := false; missing := missing |}
        else {| allowed := true; missing := [] |}
    end.

Definition ensureCustomToolPermissions (tool : string)
    (perms : list CustomToolPermission) (now : Z)
    (state : CustomToolPermissionState) : CustomToolPermissionState :=
  grantPermission tool perms now state.

Definition revokeCustomToolPermissions (tool : string)
    (state : CustomToolPermissionState) : CustomToolPermissionState :=
  revokePermission tool state.

End Permission.

(** ** The tool adapter ([custom-tool-registry.tsx]) *)

Module Registry.
Import PermissionStore Permission.

(** A tool's [execute] is user code: it receives its parameters and the
    execution context, runs against the process-wide permission store, and
    resolves or rejects. *)
Definition Execute : Type :=
  Value -> Value -> CustomToolPermissionState -> result Value * CustomToolPermissionState.

Record Description : Type := mkDescription { en : string; zh : string }.

(** The fields of [CustomToolDefinition] the adapter reads.  [description]
    and [permissions] can be missing at run time ([?.] and [??] in the
    source); [args] is the schema object, passed through untouched. *)
Record CustomToolDefinition : Type := mkDefinition {
  name : string;
  description : option Description;
  args : Value;
  permissions : option (list CustomToolPermission);
  execute : Execute;
  hidden : option bool;
}.

(** [a || b] on strings *)
Definition or_string (a b : string) : string :=
  if String.eqb a "" then b else a.

(** [definition.description?.en || definition.description?.zh || definition.name] *)
Definition fallbackDescription (definition : CustomToolDefinition) : string :=
  match description definition with
  | Some d => or_string (or_string (en d) (zh d)) (name definition)
  | None => name definition
  end.

(** The options [adaptCustomTool] hands to [createTool] (the two render
    callbacks build React elements and are left out).  [tool_execute] also
    takes the value of [Date.now()] at the call. *)
Record ToolWithUI : Type := mkTool {
  tool_name : string;
  tool_description : string;
  inputSchema : Value;
  canConcurrent : bool;
  tool_hidden : option bool;
  tool_execute : Z -> Execute;
}.

Definition adaptCustomTool (definition : CustomToolDefinition) : ToolWithUI :=
  {| tool_name := name definition;
     tool_description := fallbackDescription definition;
     inputSchema := args definition;
     canConcurrent := false;
     tool_hidden := hidden definition;
     tool_execute := fun now params context state =>
       let requested := default [] (permissions definition) in
       let state :=
         if (0 <? length requested)%nat
         then ensureCustomToolPermissions (name definition) requested now state
         else state in
       execute definition params context state |}.

End Registry.

(** ** The host: Tauri, the bundler, swc and the JavaScript engine *)

(** Three-way outcome of an awaited call: it resolves, it rejects, or it
    never settles.  [try]/[catch] handles the second only. *)
Inductive outcome (A : Type) : Type :=
  | Resolved (a : A)
  | Rejected (e : Thrown)
  | Pending.
Arguments Resolved {A} a.
Arguments Rejected {A} e.
Arguments Pending {A}.

Definition of_result {A} (r : result A) : outcome A :=
  match r with Ok a => Resolved a | Throw e => Rejected e end.

(** One entry of [readDir]: the fields the loader reads. *)
Record DirEntry : Type := mkEntry {
  entry_name : string;
  isFile : bool;
}.

(** [PlaygroundPermission] comes from [@/types/playground]; the code
    compares it with the literal ['net']. *)
Definition PlaygroundPermission : Type := string.

(** The options a playground resolver closes over; the closure is
    identified with them. *)
Record PlaygroundOptions : Type := mkOptions {
  pg_permissions : list PlaygroundPermission;
  mockFetch : bool;
  timeout : Z;
  playgroundId : string;
}.

(** Module-level state of [import-map.ts], and the page's global object as
    [custom-tool-compiler.ts] uses it: [hasWindow] is
    [typeof window !== 'undefined'], and [windowResolver] is the global
    [window.__talkcodyResolveCustomToolModule] ([None] while it is not
    installed, else the default base directory it was installed with; it
    can only be installed on a window). *)
Record Heap : Type := mkHeap {
  moduleCache : gmap string Value;
  moduleRegistry : gmap string Value;
  playgroundResolvers : gmap string PlaygroundOptions;
  playgroundModuleCache : gmap string Value;
  windowResolver : option (option string);
  hasWindow : bool;
}.

(** What a module body does when it runs under the wrapper of
    [createCustomToolModuleUrl]: it finishes with a value of
    [module.exports], throws, or reaches a rewritten call site
    [await __require(specifier)] and goes on with what that call gave,
    a value or a rejection it may catch.  The body is JavaScript running in
    the page, inside [__load]: the wrapper's [__moduleCache] is in its
    scope, and [window] and the exports of [import-map.ts] are in its
    reach.  [Act] is a step in which it reads and changes them directly:
    the module's own cache and the module-level state become what [effect]
    makes of them, and the body goes on as what it read tells it. *)
Inductive Code : Type :=
  | Done (exports : Value)
  | Raise (e : Thrown)
  | Require (specifier : string) (k : result Value -> Code)
  | Act (effect : gmap string Value -> Heap -> gmap string Value * Heap)
        (k : gmap string Value -> Heap -> Code).

(** The collaborators the subsystem calls and does not implement:
    [@tauri-apps/api/path], [@tauri-apps/plugin-fs], the dynamic [import()]
    of bundled modules, the table [import.meta.glob] builds, swc's
    [transform], and the engine that runs a module text. *)
Record Host : Type := mkHost {
  normalize : string -> result string;
  join : string -> string -> result string;
  dirname : string -> result string;
  basename : string -> result string;
  homeDir : result string;
  fs_exists : string -> result bool;
  readTextFile : string -> result string;
  readDir : string -> result (list DirEntry);
  dynamicImport : string -> result Value;
  internalModuleLoaders : gmap string (result Value);
  swc_transform : string -> string -> bool -> result (string * option string);
  evaluate : string -> Code;
}.

Definition set_moduleCache (f : gmap string Value -> gmap string Value) (h : Heap) : Heap :=
  {| moduleCache := f (moduleCache h);
     moduleRegistry := moduleRegistry h;
     playgroundResolvers := playgroundResolvers h;
     playgroundModuleCache := playgroundModuleCache h;
     windowResolver := windowResolver h;
     hasWindow := hasWindow h |}.

Definition set_playgroundModuleCache (f : gmap string Value -> gmap string Value) (h : Heap) : Heap :=
  {| moduleCache := moduleCache h;
     moduleRegistry := moduleRegistry h;
     playgroundResolvers := playgroundResolvers h;
     playgroundModuleCache := f (playgroundModuleCache h);
     windowResolver := windowResolver h;
     hasWindow := hasWindow h |}.

Definition set_playgroundResolvers
    (f : gmap string PlaygroundOptions -> gmap string PlaygroundOptions) (h : Heap) : Heap :=
  {| moduleCache := moduleCache h;
     moduleRegistry := moduleRegistry h;
     playgroundResolvers := f (playgroundResolvers h);
     playgroundModuleCache := playgroundModuleCache h;
     windowResolver := windowResolver h;
     hasWindow := hasWindow h |}.

Definition set_windowResolver (r : option (option string)) (h : Heap) : Heap :=
  {| moduleCache := moduleCache h;
     moduleRegistry := moduleRegistry h;
     playgroundResolvers := playgroundResolvers h;
     playgroundModuleCache := playgroundModuleCache h;
     windowResolver := r;
     hasWindow := hasWindow h |}.

(** The state when the page has just loaded the modules. *)
Definition emptyHeap : Heap :=
  {| moduleCache := ∅; moduleRegistry := ∅; playgroundResolvers := ∅;
     playgroundModuleCache := ∅; windowResolver := None; hasWindow := true |}.

(** A stateful asynchronous computation. *)
Definition Async (A : Type) : Type := Heap -> outcome A * Heap.

Definition ret {A} (a : A) : Async A := fun h => (Resolved a, h).
Definition reject {A} (e : Thrown) : Async A := fun h => (Rejected e, h).
Definition bind {A B} (m : Async A) (k : A -> Async B) : Async B :=
  fun h =>
    match m h with
    | (Resolved a, h') => k a h'
    | (Rejected e, h') => (Rejected e, h')
    | (Pending, h') => (Pending, h')
    end.
(** [await] of a host call *)
Definition host {A} (r : result A) : Async A := fun h => (of_result r, h).
(** [try { m } catch (error) { handler error }] *)
Definition try_catch {A} (m : Async A) (handler : Thrown -> Async A) : Async A :=
  fun h =>
    match m h with
    | (Rejected e, h') => handler e h'
    | other => other
    end.
Definition get_heap : Async Heap := fun h => (Resolved h, h).
Definition modify_heap (f : Heap -> Heap) : Async unit := fun h => (Resolved tt, f h).

Declare Scope async_scope.
Delimit Scope async_scope with async.
Notation "x <- m ;; k" := (bind m (fun x => k))
  (at level 100, m at next level, right associativity) : async_scope.
Notation "m ;;; k" := (bind m (fun _ => k))
  (at level 100, right associativity) : async_scope.

(** ** The compiler and the module wrapper ([custom-tool-compiler.ts]) *)

Module Compiler.
Import JsString.
Local Open Scope async_scope.

Record CompileResult : Type := mkCompiled {
  code : string;
  sourceMap : option string;
}.

(** [compileCustomTool]: swc's [transform] with [tsx] switched on by the
    file name; the one-time initialisation of swc is part of the host call.
    A transform error rejects. *)
Definition compileCustomTool (H : Host) (source filename : string) : Async CompileResult :=
  r <- host (swc_transform H source filename (endsWith filename ".tsx")) ;;
  ret {| code := r.1; sourceMap := r.2 |}.

(** A word character of a regular expression: [[A-Za-z0-9_]]. *)
Definition is_word (c : ascii) : bool :=
  is_upper c || is_lower c
  || (let n := nat_of_ascii c in (48 <=? n)%nat && (n <=? 57)%nat)
  || bool_decide (c = "_"%char).

(** [source.replace(/\brequire\(/g, 'await __require(')].  A match starts
    at an [r] that follows no word character; no second match can start
    inside it, so the scan inserts [await __] in front of each match and
    copies the text. *)
Fixpoint convert_chars (afterWord : bool) (s : list ascii) : list ascii :=
  match s with
  | [] => []
  | c :: rest =>
      (if negb afterWord && bool_decide (chars "require(" `prefix_of` s)
       then chars "await __" else [])
      ++ c :: convert_chars (is_word c) rest
  end.

Definition convertCommonJsToAsyncRequire (source : string) : string :=
  of_chars (convert_chars false (chars source)).

(** The module text [createCustomToolModuleUrl] puts behind the blob URL
    is the fixed wrapper around three holes: the transformed code, the base
    directory and the file name. *)
Record ModuleUrl : Type := mkUrl {
  transformed : string;
  url_baseDir : option string;
  url_filename : string;
}.

Definition createCustomToolModuleUrl (compiled : CompileResult) (filename : string)
    (baseDir : option string) : Async ModuleUrl :=
  ret {| transformed := convertCommonJsToAsyncRequire (code compiled);
         url_baseDir := baseDir;
         url_filename := filename |}.

(** [a ?? b] on optional strings *)
Definition orElse (a b : option string) : option string :=
  match a with Some _ => a | None => b end.

(** [registerCustomToolModuleResolver]: nothing without a window;
    otherwise it installs the global once. *)
Definition registerCustomToolModuleResolver (baseDir : option string) : Async unit :=
  h <- get_heap ;;
  if negb (hasWindow h) then ret tt
  else
    match windowResolver h with
    | Some _ => ret tt
    | None => modify_heap (set_windowResolver (Some baseDir))
    end.

(** The [TypeError] of calling the global while it is [undefined]. *)
Definition notAFunction : Thrown :=
  ThrownError "window.__talkcodyResolveCustomToolModule is not a function".

(** The [ReferenceError] of naming [window] where there is none. *)
Definition windowNotDefined : Thrown :=
  ThrownError "window is not defined".

Definition importNotFound (specifier : string) : Thrown :=
  ThrownError ("Custom tool import not found: " +:+ specifier).

Section Wrapper.

(** [resolveCustomToolModule] of [import-map.ts], which this file imports
    and [import-map.ts] defines on top of this one. *)
Variable resolveCustomToolModule : string -> option string -> Async Value.

(** [window.__talkcodyResolveCustomToolModule(specifier, requestBaseDir)]:
    the call of the installed resolver; where none is installed, naming
    [window] is a [ReferenceError] when there is no window, and calling the
    [undefined] global a [TypeError] when there is one. *)
Definition callWindowResolver (specifier : string) (requestBaseDir : option string)
    : Async Value :=
  h <- get_heap ;;
  match windowResolver h with
  | None => if hasWindow h then reject notAFunction else reject windowNotDefined
  | Some baseDir => resolveCustomToolModule specifier (orElse requestBaseDir baseDir)
  end.

(** The wrapper's [__require], with the module's own [__moduleCache]
    passed in and out. *)
Definition require (baseDir : option string) (specifier : string)
    (cache : gmap string Value) : Async (Value * gmap string Value) :=
  match cache !! specifier with
  | Some cached => ret (cached, cache)
  | None =>
      resolved <- callWindowResolver specifier baseDir ;;
      if negb (truthy resolved) then reject (importNotFound specifier)
      else ret (resolved, <[specifier := resolved]> cache)
  end.

(** Running a piece of the module's code: each [Require] goes through
    [__require]; a rejection is handed to the code, which catches it or
    throws it on.  An [Act] is applied to the module's cache and to the
    state as they are when the code reaches it. *)
Fixpoint run (baseDir : option string) (c : Code) (cache : gmap string Value)
    : Async (Value * gmap string Value) :=
  match c with
  | Done exports => ret (exports, cache)
  | Raise e => reject e
  | Require specifier k =>
      fun h =>
        match require baseDir specifier cache h with
        | (Resolved (v, cache'), h') => run baseDir (k (Ok v)) cache' h'
        | (Rejected e, h') => run baseDir (k (Throw e)) cache h'
        | (Pending, h') => (Pending, h')
        end
  | Act effect k =>
      fun h => run baseDir (k cache h) (effect cache h).1 (effect cache h).2
  end.

(** [module.exports?.default ?? module.exports] *)
Definition defaultOrExports (exports : Value) : Value :=
  if nullish exports then exports
  else let d := get_field "default" exports in
       if nullish d then exports else d.

(** [__load]: a fresh [__moduleCache], the body, then the default export. *)
Definition load (H : Host) (url : ModuleUrl) : Async Value :=
  r <- run (url_baseDir url) (evaluate H (transformed url)) ∅ ;;
  ret (defaultOrExports r.1).

(** [resolveCustomToolDefinition]: [import(moduleUrl)] runs [__load] for
    the namespace's [default]; [module.default ?? module] is the namespace
    object itself when that is [null] or [undefined]. *)
Definition resolveCustomToolDefinition (H : Host) (url : ModuleUrl) : Async Value :=
  d <- load H url ;;
  ret (if nullish d then VModule ("custom-tool:" +:+ url_filename url) else d).

End Wrapper.

(** The code never reaches a call [__require(alias)], whatever the calls
    it does make give back. *)
Inductive avoids (alias : string) : Code -> Prop :=
  | avoids_Done exports : avoids alias (Done exports)
  | avoids_Raise e : avoids alias (Raise e)
  | avoids_Require specifier k :
      specifier ≠ alias ->
      (forall r, avoids alias (k r)) ->
      avoids alias (Require specifier k)
  | avoids_Act effect k :
      (forall cache h, avoids alias (k cache h)) ->
      avoids alias (Act effect k).

End Compiler.

(** ** The module resolver ([import-map.ts]) *)

Module ImportMap.
Import JsString.
Local Open Scope async_scope.

(** The keys of [builtinLoaders]; each loader is [() => import(key)]. *)
Definition builtinLoaders : list string :=
  ["react"; "react/jsx-runtime"; "recharts"; "zod"].

(** [moduleRegistry] is a plain object literal, so [alias in moduleRegistry]
    and [moduleRegistry[alias]] also see what it inherits from
    [Object.prototype]. *)
Definition objectPrototypeMethods : list (string * Value) :=
  (fun k => (k, VFunction ("Object.prototype." +:+ k))) <$>
  ["constructor"; "__defineGetter__"; "__defineSetter__"; "hasOwnProperty";
   "__lookupGetter__"; "__lookupSetter__"; "isPrototypeOf";
   "propertyIsEnumerable"; "toString"; "valueOf"; "toLocaleString"].

Definition objectPrototype : list (string * Value) :=
  objectPrototypeMethods ++ [("__proto__", VObject objectPrototypeMethods)].

(** [alias in moduleRegistry] *)
Definition inRegistry (alias : string) (registry : gmap string Value) : bool :=
  bool_decide (is_Some (registry !! alias)) || bool_decide (is_Some (assoc alias objectPrototype)).

(** [moduleRegistry[alias]] *)
Definition readRegistry (alias : string) (registry : gmap string Value) : Value :=
  match registry !! alias with
  | Some v => v
  | None => default VUndefined (assoc alias objectPrototype)
  end.

Definition buildInternalCandidates (specifier : string) : list string :=
  if negb (startsWith specifier "@/") then []
  else
    let relative := of_chars (drop 2 (chars specifier)) in
    let base := "/src/" +:+ relative in
    [ base;
      base +:+ ".ts";
      base +:+ ".tsx";
      base +:+ ".js";
      base +:+ ".jsx";
      base +:+ "/index.ts";
      base +:+ "/index.tsx";
      base +:+ "/index.js";
      base +:+ "/index.jsx" ].

(** The loop of [loadInternalModule]: the first candidate that has a
    loader is loaded. *)
Fixpoint firstLoader (H : Host) (candidates : list string) : result Value :=
  match candidates with
  | [] => Ok VUndefined
  | candidate :: rest =>
      match internalModuleLoaders H !! candidate with
      | Some loaded => loaded
      | None => firstLoader H rest
      end
  end.

Definition loadInternalModule (H : Host) (specifier : string) : Async Value :=
  host (firstLoader H (buildInternalCandidates specifier)).

(** [moduleCache.set(key, value)] *)
Definition cacheSet (key : string) (value : Value) : Async unit :=
  modify_heap (set_moduleCache (insert key value)).

Definition resolveRelativePath (H : Host) (baseDir specifier : string) : Async string :=
  joined <- host (join H baseDir specifier) ;;
  host (normalize H joined).

Definition fileNotFound (filePath : string) : Thrown :=
  ThrownError ("File not found: " +:+ filePath).

Definition relativeNeedsBase (alias : string) : Thrown :=
  ThrownError ("Relative import requires base directory: " +:+ alias).

(** [!baseDir] *)
Definition noBaseDir (baseDir : option string) : bool :=
  match baseDir with
  | None => true
  | Some d => String.eqb d ""
  end.

Section Resolve.

Variable H : Host.

(** [loadAndCompileFile], which compiles the file and imports it through
    the wrapper, and so comes back to the resolver for the file's own
    imports. *)
Variable loadAndCompileFile : string -> Async Value.

Definition resolveWith (alias : string) (baseDir : option string) : Async Value :=
  h <- get_heap ;;
  match moduleCache h !! alias with
  | Some cached => ret cached
  | None =>
      if startsWith alias "./" || startsWith alias "../" then
        if noBaseDir baseDir then reject (relativeNeedsBase alias)
        else
          resolvedPath <- resolveRelativePath H (default "" baseDir) alias ;;
          let cacheKey := "file:" +:+ resolvedPath in
          h <- get_heap ;;
          match moduleCache h !! cacheKey with
          | Some cached => ret cached
          | None =>
              module <- loadAndCompileFile resolvedPath ;;
              cacheSet cacheKey module ;;;
              cacheSet alias module ;;;
              ret module
          end
      else if inRegistry alias (moduleRegistry h) then
        let registered := readRegistry alias (moduleRegistry h) in
        cacheSet alias registered ;;;
        ret registered
      else if bool_decide (alias ∈ builtinLoaders) then
        loaded <- host (dynamicImport H alias) ;;
        cacheSet alias loaded ;;;
        ret loaded
      else
        internalModule <- loadInternalModule H alias ;;
        if truthy internalModule then
          cacheSet alias internalModule ;;;
          ret internalModule
        else ret VUndefined
  end.

End Resolve.

(** [loadAndCompileFile] and [resolveCustomToolModule] call each other
    through the wrapper of the compiled module.  [fuel] bounds how deep
    relative imports nest; when it is used up the import never settles,
    which is what a cycle of relative imports does. *)
Fixpoint loadAndCompileFile (H : Host) (fuel : nat) (filePath : string) : Async Value :=
  match fuel with
  | O => fun h => (Pending, h)
  | S fuel =>
      found <- host (fs_exists H filePath) ;;
      if negb found then reject (fileNotFound filePath)
      else
        filename <- host (basename H filePath) ;;
        fileDir <- host (dirname H filePath) ;;
        sourceCode <- host (readTextFile H filePath) ;;
        compiled <- Compiler.compileCustomTool H sourceCode filename ;;
        moduleUrl <- Compiler.createCustomToolModuleUrl compiled filename (Some fileDir) ;;
        Compiler.resolveCustomToolDefinition
          (resolveWith H (loadAndCompileFile H fuel)) H moduleUrl
  end.

Definition resolveCustomToolModule (H : Host) (fuel : nat) (alias : string)
    (baseDir : option string) : Async Value :=
  resolveWith H (loadAndCompileFile H fuel) alias baseDir.

(** [isCustomToolDefinition]: a truthy object with a [name]. *)
Definition isCustomToolDefinition (value : Value) : bool :=
  match value with
  | VObject fields | VGuarded _ _ fields => bool_decide (is_Some (assoc "name" fields))
  | _ => false
  end.

(** *** Playground support *)

Definition registerPlaygroundResolver (id : string) (resolver : PlaygroundOptions) : Async unit :=
  modify_heap (set_playgroundResolvers (insert id resolver)).

Definition unregisterPlaygroundResolver (id : string) : Async unit :=
  modify_heap (set_playgroundResolvers (delete id)) ;;;
  modify_heap (set_playgroundModuleCache (fun _ => ∅)).

Definition permissionDenied (specifier : string) : Thrown :=
  ThrownError ("Permission denied: 'net' permission required for " +:+ specifier).

Definition resolveModuleWithPermissions (H : Host) (fuel : nat) (specifier : string)
    (permissions : list PlaygroundPermission) (mock : bool) (timeout : Z) : Async Value :=
  if String.eqb specifier "@/lib/tauri-fetch" then
    if negb (bool_decide ("net" ∈ permissions)) then reject (permissionDenied specifier)
    else
      _ <- host (dynamicImport H "@/lib/tauri-fetch") ;;
      if mock then ret (VObject [("simpleFetch", VFunction "mock fetch")])
      else ret (VObject [("simpleFetch", VFunction "fetch with timeout")])
  else resolveCustomToolModule H fuel specifier None.

(** The key of a playground cache entry: [`${playgroundId}:${specifier}`]. *)
Definition playgroundKey (id specifier : string) : string :=
  id +:+ ":" +:+ specifier.

(** The closure [createPlaygroundModuleResolver] builds, applied. *)
Definition playgroundResolve (H : Host) (fuel : nat) (options : PlaygroundOptions)
    (specifier : string) : Async Value :=
  let cacheKey := playgroundKey (playgroundId options) specifier in
  h <- get_heap ;;
  match playgroundModuleCache h !! cacheKey with
  | Some cached => ret cached
  | None =>
      module <- resolveModuleWithPermissions H fuel specifier
                  (pg_permissions options) (mockFetch options) (timeout options) ;;
      (match module with
       | VUndefined => ret tt
       | _ => modify_heap (set_playgroundModuleCache (insert cacheKey module))
       end) ;;;
      ret module
  end.

(** [createPlaygroundModuleResolver]: the options with their defaults
    filled in; the resolver is registered and returned. *)
Definition createPlaygroundModuleResolver (permissions : option (list PlaygroundPermission))
    (mock : option bool) (timeout : option Z) (id : string) : Async PlaygroundOptions :=
  let resolver :=
    {| pg_permissions := default [] permissions;
       mockFetch := default false mock;
       timeout := default 30000 timeout;
       playgroundId := id |} in
  registerPlaygroundResolver id resolver ;;;
  ret resolver.

(** The loop of [clearPlaygroundCache] over [playgroundModuleCache.keys()]. *)
Definition clearKeys (id : string) (keys : list string) (cache : gmap string Value)
    : gmap string Value :=
  foldl (fun cache key =>
           if startsWith key (id +:+ ":") then delete key cache else cache)
        cache keys.

Definition clearPlaygroundCache (id : string) : Async unit :=
  modify_heap (set_playgroundModuleCache
    (fun cache => clearKeys id (map_to_list cache).*1 cache)).

(** [getPlaygroundCacheSize] *)
Definition getPlaygroundCacheSize (id : option string) (h : Heap) : nat :=
  match id with
  | Some id =>
      if String.eqb id "" then size (playgroundModuleCache h)
      else length (List.filter (fun key => startsWith key (id +:+ ":"))
                               (map_to_list (playgroundModuleCache h)).*1)
  | None => size (playgroundModuleCache h)
  end.

End ImportMap.

(** ** Regular expressions of the loader *)

(** The fragment of JavaScript regular expressions the loader uses, matched
    the way the language defines it: by backtracking, each item handing the
    rest of the input to the items after it. *)
Module Regex.
Import JsString.

Inductive CharSet : Type :=
  | Lit (c : ascii)             (* a literal or escaped character *)
  | OneOf (cs : list ascii)     (* [...] *)
  | Dot.                        (* . *)

Inductive Item : Type :=
  | One (a : CharSet)
  | Opt (a : CharSet)                   (* a? *)
  | Star (a : CharSet)                  (* a* *)
  | Plus (a : CharSet)                  (* a+ *)
  | Group (alts : list (list ascii))    (* (abc|ab) *)
  | End.                                (* $ without the m flag *)

Definition Pattern : Type := list Item.

(** The line terminators among the code units below 256. *)
Definition lineTerminator (c : ascii) : bool :=
  bool_decide (c = "010"%char) || bool_decide (c = "013"%char).

(** With the [i] flag both sides are canonicalised by [toUpperCase]. *)
Definition sameChar (ignoreCase : bool) (p c : ascii) : bool :=
  if ignoreCase then bool_decide (upper p = upper c) else bool_decide (p = c).

Definition accepts (ignoreCase : bool) (a : CharSet) (c : ascii) : bool :=
  match a with
  | Lit p => sameChar ignoreCase p c
  | OneOf cs => existsb (fun p => sameChar ignoreCase p c) cs
  | Dot => negb (lineTerminator c)
  end.

(** One alternative of a group: literal characters, then the rest. *)
Fixpoint literal (ignoreCase : bool) (alt : list ascii) (k : list ascii -> bool)
    (s : list ascii) : bool :=
  match alt with
  | [] => k s
  | p :: alt' =>
      match s with
      | c :: s' => sameChar ignoreCase p c && literal ignoreCase alt' k s'
      | [] => false
      end
  end.

(** [a*] followed by [k]: as many as possible first, then fewer. *)
Fixpoint star (ignoreCase : bool) (a : CharSet) (k : list ascii -> bool)
    (s : list ascii) : bool :=
  match s with
  | c :: s' => (accepts ignoreCase a c && star ignoreCase a k s') || k s
  | [] => k s
  end.

(** Does the pattern match a prefix of [s]? *)
Fixpoint matchHere (ignoreCase : bool) (p : Pattern) : list ascii -> bool :=
  match p with
  | [] => fun _ => true
  | item :: p' =>
      let k := matchHere ignoreCase p' in
      match item with
      | One a => fun s =>
          match s with c :: s' => accepts ignoreCase a c && k s' | [] => false end
      | Opt a => fun s =>
          match s with c :: s' => (accepts ignoreCase a c && k s') || k s | [] => k s end
      | Star a => star ignoreCase a k
      | Plus a => fun s =>
          match s with
          | c :: s' => accepts ignoreCase a c && star ignoreCase a k s'
          | [] => false
          end
      | Group alts => fun s => existsb (fun alt => literal ignoreCase alt k s) alts
      | End => fun s => match s with [] => k [] | _ :: _ => false end
      end
  end.

(** The start of the leftmost match, trying every position in turn. *)
Fixpoint search (ignoreCase : bool) (p : Pattern) (s : list ascii) : option nat :=
  if matchHere ignoreCase p s then Some O
  else match s with
       | [] => None
       | _ :: s' => S <$> search ignoreCase p s'
       end.

(** [regex.test(s)] *)
Definition test (ignoreCase : bool) (p : Pattern) (s : string) : bool :=
  bool_decide (is_Some (search ignoreCase p (chars s))).

(** [s.replace(regex, '')] for a pattern that ends in [$]: the match runs
    to the end of the string, so what stays is the text before its start. *)
Definition removeToEnd (ignoreCase : bool) (p : Pattern) (s : string) : string :=
  match search ignoreCase p (chars s) with
  | Some start => of_chars (take start (chars s))
  | None => s
  end.

End Regex.

(** ** Discovery and loading ([custom-tool-loader.ts]) *)

Module Loader.
Import JsString Regex.

Inductive CustomToolSource : Type := Custom | Workspace | User.

Inductive Status : Type := Loaded | Error.

Record CustomToolLoadResult : Type := mkResult {
  name : string;
  filePath : string;
  status : Status;
  source : CustomToolSource;
  error : option string;
  tool : option Value;
}.

Record CustomToolLoadOptions : Type := mkLoadOptions {
  workspaceRoot : option string;
  customDirectory : option string;
}.

Record Directory : Type := mkDir {
  path : string;
  dir_source : CustomToolSource;
}.

Definition CUSTOM_TOOLS_RELATIVE_DIR : string := ".talkcody/tools".
Definition CUSTOM_TOOLS_SUFFIX : string := "/" +:+ CUSTOM_TOOLS_RELATIVE_DIR.

(** [value.replace(/\\/g, '/')] *)
Definition slashes (value : string) : string :=
  of_chars ((fun c => if bool_decide (c = "\"%char) then "/"%char else c) <$> chars value).

(** [/\/+$/] *)
Definition trailingSlashes : Pattern := [Plus (Lit "/"); End].

Definition normalizePathForSuffix (value : string) : string :=
  removeToEnd false trailingSlashes (slashes value).

(** Sequencing of host calls that touch no module state. *)
Definition and_then {A B} (r : result A) (k : A -> result B) : result B :=
  match r with
  | Ok a => k a
  | Throw e => Throw e
  end.

Definition resolveCustomToolsDirectory (H : Host) (customDirectory : string) : result string :=
  and_then (normalize H customDirectory) (fun normalized =>
  let normalizedForSuffix := normalizePathForSuffix normalized in
  if endsWith normalizedForSuffix CUSTOM_TOOLS_SUFFIX then Ok normalized
  else and_then (join H customDirectory CUSTOM_TOOLS_RELATIVE_DIR) (fun joined =>
       normalize H joined)).

(** [/.*[-_]tool\.tsx?$/i] *)
Definition toolFilePattern : Pattern :=
  [ Star Dot; One (OneOf ["-"; "_"]%char);
    One (Lit "t"); One (Lit "o"); One (Lit "o"); One (Lit "l");
    One (Lit "."); One (Lit "t"); One (Lit "s"); Opt (Lit "x"); End ].

Definition hasCustomToolExtension (fileName : string) : bool :=
  test true toolFilePattern fileName.

(** [/\.(tsx|ts)$/i] *)
Definition extensionPattern : Pattern :=
  [ One (Lit "."); Group [chars "tsx"; chars "ts"]; End ].

Definition getToolNameFromFile (fileName : string) : string :=
  removeToEnd true extensionPattern fileName.

(** A truthy string: present and not empty. *)
Definition given (value : option string) : option string :=
  match value with
  | Some s => if String.eqb s "" then None else Some s
  | None => None
  end.

(** The closure [addDir] of [buildDirectories], acting on the two locals
    it captures.  [pathValue] is [None] for [null] or [undefined], and
    otherwise what awaiting it gives.  A rejection, of the awaited value or
    of [normalize], is caught and logged. *)
Definition addDir (H : Host) (pathValue : option (result string)) (src : CustomToolSource)
    (locals : list Directory * gset string) : list Directory * gset string :=
  let '(directories, seen) := locals in
  match pathValue with
  | None => locals
  | Some (Throw _) => locals
  | Some (Ok resolvedPath) =>
      if String.eqb resolvedPath "" then locals
      else match normalize H resolvedPath with
           | Throw _ => locals
           | Ok resolved =>
               if bool_decide (resolved ∈ seen) then locals
               else (directories ++ [{| path := resolved; dir_source := src |}],
                     {[resolved]} ∪ seen)
           end
  end.


Definition buildDirectories (H : Host) (options : CustomToolLoadOptions)
    : result (list Directory) :=
  let locals : list Directory * gset string := ([], ∅) in
  match given (customDirectory options) with
  | Some custom =>
      and_then (resolveCustomToolsDirectory H custom) (fun resolvedCustom =>
      let locals := addDir H (Some (Ok resolvedCustom)) Custom locals in
      Ok locals.1)
  | None =>
      let locals :=
        match given (workspaceRoot options) with
        | Some root =>
            addDir H (Some (join H root CUSTOM_TOOLS_RELATIVE_DIR)) Workspace locals
        | None => locals
        end in
      let locals :=
        match homeDir H with
        | Ok userHome =>
            if String.eqb userHome "" then locals
            else addDir H (Some (join H userHome CUSTOM_TOOLS_RELATIVE_DIR)) User locals
        | Throw _ => locals
        end in
      Ok locals.1
  end.

Local Open Scope async_scope.

Definition invalidExport : Thrown := ThrownError "Invalid tool export".

(** The [TypeError] of adding a property to an object that is not
    extensible, such as a module namespace object. *)
Definition notExtensible : Thrown :=
  ThrownError "Cannot add property name, object is not extensible".

(** The [TypeError] of assigning a property that is not writable. *)
Definition readOnlyName : Thrown :=
  ThrownError "Cannot assign to read only property 'name' of object".

(** [definition.name = toolName], in the strict mode of a module: the
    assignment throws where the object does not take it. *)
Definition setName (definition : Value) (toolName : string) : Async Value :=
  match definition with
  | VObject fields => ret (VObject (set_assoc "name" (VString toolName) fields))
  | VGuarded extensible readOnly fields =>
      if bool_decide (is_Some (assoc "name" fields)) then
        if bool_decide ("name" ∈ readOnly) then reject readOnlyName
        else ret (VGuarded extensible readOnly
                    (set_assoc "name" (VString toolName) fields))
      else if extensible then
        ret (VGuarded extensible readOnly (set_assoc "name" (VString toolName) fields))
      else reject notExtensible
  | _ => reject notExtensible
  end.

(** The body of the inner [try] of [loadCustomTools]. *)
Definition tryLoad (H : Host) (fuel : nat) (entryName filePath toolName : string)
    (src : CustomToolSource) : Async CustomToolLoadResult :=
  sourceCode <- host (readTextFile H filePath) ;;
  compiled <- Compiler.compileCustomTool H sourceCode entryName ;;
  fileDir <- host (dirname H filePath) ;;
  moduleUrl <- Compiler.createCustomToolModuleUrl compiled entryName (Some fileDir) ;;
  definition <- Compiler.resolveCustomToolDefinition
                  (ImportMap.resolveCustomToolModule H fuel) H moduleUrl ;;
  if negb (truthy definition) || negb (typeof_object definition) then reject invalidExport
  else
    definition <-
      (let name := get_field "name" definition in
       if negb (truthy name) || negb (typeof_string name)
       then setName definition toolName
       else ret definition) ;;
    ret {| name := match get_field "name" definition with
                   | VString s => s
                   | _ => toolName
                   end;
           filePath := filePath;
           source := src;
           status := Loaded;
           error := None;
           tool := Some definition |}.

(** The result the inner [catch] pushes, with the message it computed. *)
Definition fileError (filePath toolName : string) (src : CustomToolSource) (message : string)
    : CustomToolLoadResult :=
  {| name := toolName; filePath := filePath; source := src; status := Error;
     error := Some message; tool := None |}.

(** The inner [try]/[catch]: one file, one result, unless the [catch]
    block throws itself, which it does when the message of what it caught
    cannot be computed. *)
Definition loadFile (H : Host) (fuel : nat) (entryName filePath toolName : string)
    (src : CustomToolSource) : Async CustomToolLoadResult :=
  try_catch (tryLoad H fuel entryName filePath toolName src)
    (fun e => message <- host (errorMessage e) ;;
              ret (fileError filePath toolName src message)).

(** The three [continue] tests on a directory entry. *)
Definition isCandidate (entry : DirEntry) : bool :=
  isFile entry
  && negb (endsWith (entry_name entry) ".d.ts")
  && hasCustomToolExtension (entry_name entry).

(** The filter as the specification words it: a file whose name ends,
    whatever the case of its letters, with [-tool] right before [.ts] or
    [.tsx], and that does not end in [.d.ts]. *)
Definition specifiedCandidate (entry : DirEntry) : Prop :=
  isFile entry = true
  ∧ (endsWith (toLowerCase (entry_name entry)) "-tool.ts" = true
     ∨ endsWith (toLowerCase (entry_name entry)) "-tool.tsx" = true)
  ∧ endsWith (entry_name entry) ".d.ts" = false.

(** The endings the pattern accepts, in lower case. *)
Definition toolSuffixes : list string :=
  ["-tool.ts"; "_tool.ts"; "-tool.tsx"; "_tool.tsx"].

(** The loop over the entries of one directory.  [results] is the array
    the function appends to; it is returned with the outcome because what
    was pushed stays when the loop is left by a rejection. *)
Fixpoint loadEntries (H : Host) (fuel : nat) (dirPath : string) (src : CustomToolSource)
    (entries : list DirEntry) (results : list CustomToolLoadResult) (h : Heap)
    : outcome unit * list CustomToolLoadResult * Heap :=
  match entries with
  | [] => (Resolved tt, results, h)
  | entry :: rest =>
      if negb (isCandidate entry) then loadEntries H fuel dirPath src rest results h
      else
        match join H dirPath (entry_name entry) with
        | Throw e => (Rejected e, results, h)
        | Ok filePath =>
            let toolName := getToolNameFromFile (entry_name entry) in
            match loadFile H fuel (entry_name entry) filePath toolName src h with
            | (Resolved r, h') => loadEntries H fuel dirPath src rest (results ++ [r]) h'
            | (Rejected e, h') => (Rejected e, results, h')
            | (Pending, h') => (Pending, results, h')
            end
        end
  end.

Definition directoryError (dirPath : string) (src : CustomToolSource) (message : string)
    : CustomToolLoadResult :=
  {| name := dirPath; filePath := dirPath; source := src; status := Error;
     error := Some message; tool := None |}.

(** The body of the outer [try] for one directory. *)
Definition scanDirectory (H : Host) (fuel : nat) (dir : Directory)
    (results : list CustomToolLoadResult) (h : Heap)
    : outcome unit * list CustomToolLoadResult * Heap :=
  match fs_exists H (path dir) with
  | Throw e => (Rejected e, results, h)
  | Ok false =>
      (Resolved tt,
       results ++ [directoryError (path dir) (dir_source dir) "Directory not found"], h)
  | Ok true =>
      match readDir H (path dir) with
      | Throw e => (Rejected e, results, h)
      | Ok entries => loadEntries H fuel (path dir) (dir_source dir) entries results h
      end
  end.

(** The loop over the directories, with the outer [catch], which throws
    itself when the message of what it caught cannot be computed. *)
Fixpoint loadDirectories (H : Host) (fuel : nat) (directories : list Directory)
    (results : list CustomToolLoadResult) (h : Heap)
    : outcome unit * list CustomToolLoadResult * Heap :=
  match directories with
  | [] => (Resolved tt, results, h)
  | dir :: rest =>
      match scanDirectory H fuel dir results h with
      | (Resolved _, results', h') => loadDirectories H fuel rest results' h'
      | (Rejected e, results', h') =>
          match errorMessage e with
          | Ok message =>
              loadDirectories H fuel rest
                (results' ++ [directoryError (path dir) (dir_source dir) message]) h'
          | Throw e' => (Rejected e', results', h')
          end
      | (Pending, results', h') => (Pending, results', h')
      end
  end.

(** [loadCustomTools]; the summary is its [tools] array. *)
Definition loadCustomTools (H : Host) (fuel : nat) (options : CustomToolLoadOptions)
    : Async (list CustomToolLoadResult) :=
  directories <- host (buildDirectories H options) ;;
  if (length directories =? 0)%nat then ret []
  else
    Compiler.registerCustomToolModuleResolver None ;;;
    fun h =>
      match loadDirectories H fuel directories [] h with
      | (Resolved _, results, h') => (Resolved results, h')
      | (Rejected e, _, h') => (Rejected e, h')
      | (Pending, _, h') => (Pending, h')
      end.

End Loader.

(** ** A concrete host

    A small POSIX-like machine on which the functions above can be run:
    slash-separated paths, a handful of files, and module texts whose
    behaviour is fixed by a table. *)

Module Example.
Import JsString.

Fixpoint split_on (sep : ascii) (s : list ascii) : list (list ascii) :=
  match s with
  | [] => [[]]
  | c :: rest =>
      if bool_decide (c = sep) then [] :: split_on sep rest
      else match split_on sep rest with
           | seg :: segs => (c :: seg) :: segs
           | [] => [[c]]
           end
  end.

Definition step (stack : list (list ascii)) (seg : list ascii) : list (list ascii) :=
  if bool_decide (seg = []) || bool_decide (seg = chars ".") then stack
  else if bool_decide (seg = chars "..") then tail stack
  else seg :: stack.

Fixpoint join_with (sep : ascii) (segs : list (list ascii)) : list ascii :=
  match segs with
  | [] => []
  | [seg] => seg
  | seg :: rest => seg ++ sep :: join_with sep rest
  end.

Definition kept_segments (p : string) : list (list ascii) :=
  rev (foldl step [] (split_on "/" (chars p))).

Definition absolute (p : string) : string :=
  if startsWith p "/" then "/" else "".

Definition posix_normalize (p : string) : string :=
  absolute p +:+ of_chars (join_with "/" (kept_segments p)).

Definition posix_join (a b : string) : string :=
  posix_normalize (a +:+ "/" +:+ b).

Definition posix_dirname (p : string) : string :=
  absolute p +:+ of_chars (join_with "/" (removelast (kept_segments p))).

Definition posix_basename (p : string) : string :=
  of_chars (default [] (last (kept_segments p))).

Definition files : gmap string string :=
  list_to_map
    [ ("/a/helper", "A"); ("/b/helper", "B");
      ("/w/.talkcody/tools/good-tool.ts", "good");
      ("/w/.talkcody/tools/bad-tool.ts", "bad!");
      ("/v/.talkcody/tools/first-tool.ts", "throw Object.create(null)");
      ("/v/.talkcody/tools/second-tool.ts", "good");
      ("/f/.talkcody/tools/frozen-tool.ts", "module.exports = Object.freeze({})") ].

Definition directories : gmap string (list DirEntry) :=
  list_to_map
    [ ("/w/.talkcody/tools",
       [ {| entry_name := "good-tool.ts"; isFile := true |};
         {| entry_name := "bad-tool.ts"; isFile := true |};
         {| entry_name := "notes.txt"; isFile := true |};
         {| entry_name := "old-tool.ts"; isFile := false |} ]);
      ("/v/.talkcody/tools",
       [ {| entry_name := "first-tool.ts"; isFile := true |};
         {| entry_name := "second-tool.ts"; isFile := true |} ]);
      ("/f/.talkcody/tools",
       [ {| entry_name := "frozen-tool.ts"; isFile := true |} ]);
      ("/a", [ {| entry_name := "helper"; isFile := true |} ]);
      ("/b", [ {| entry_name := "helper"; isFile := true |} ]) ].

Definition notFound (p : string) : Thrown :=
  ThrownError ("No such file or directory: " +:+ p).

Definition named (n : string) : Value :=
  VObject [("default", VObject [("name", VString n)])].

(** What the module texts of [files] do when they run. *)
Definition behaviour (text : string) : Code :=
  if String.eqb text "A" then Done (named "helper-a")
  else if String.eqb text "B" then Done (named "helper-b")
  else if String.eqb text "good" then Done (named "good")
  else if String.eqb text "throw Object.create(null)" then Raise ThrownUnprintable
  else if String.eqb text "module.exports = Object.freeze({})" then Done (VGuarded false [] [])
  else Done (VObject []).

Definition machine : Host :=
  {| normalize := fun p => Ok (posix_normalize p);
     join := fun a b => Ok (posix_join a b);
     dirname := fun p => Ok (posix_dirname p);
     basename := fun p => Ok (posix_basename p);
     homeDir := Ok "/home/u";
     fs_exists := fun p =>
       Ok (bool_decide (is_Some (files !! p)) || bool_decide (is_Some (directories !! p)));
     readTextFile := fun p =>
       match files !! p with Some text => Ok text | None => Throw (notFound p) end;
     readDir := fun p =>
       match directories !! p with Some entries => Ok entries | None => Throw (notFound p) end;
     dynamicImport := fun specifier => Ok (VModule specifier);
     internalModuleLoaders := {[ "/src/lib/utils.ts" := Ok (VModule "@/lib/utils") ]};
     swc_transform := fun source filename tsx =>
       if String.eqb source "bad!" then Throw (ThrownError "Syntax Error")
       else Ok (source, Some "map");
     evaluate := behaviour |}.

(** A module that takes the global resolver away while it loads:
    [delete window.__talkcodyResolveCustomToolModule; module.exports = {}]. *)
Definition removesResolver : Code :=
  Act (fun cache h => (cache, set_windowResolver None h))
      (fun _ _ => Done (VObject [])).

(** A module that writes into the wrapper's cache directly:
    [__moduleCache.set('x', 0); module.exports = {}]. *)
Definition writesCache : Code :=
  Act (fun cache h => (<["x" := VNumber 0]> cache, h))
      (fun _ _ => Done (VObject [])).

(** The machine, with every module text doing what [c] does. *)
Definition running (c : Code) : Host :=
  {| normalize := normalize machine;
     join := join machine;
     dirname := dirname machine;
     basename := basename machine;
     homeDir := homeDir machine;
     fs_exists := fs_exists machine;
     readTextFile := readTextFile machine;
     readDir := readDir machine;
     dynamicImport := dynamicImport machine;
     internalModuleLoaders := internalModuleLoaders machine;
     swc_transform := swc_transform machine;
     evaluate := fun _ => c |}.

Local Open Scope async_scope.

(** The heap after a tool file in [/a] has imported [./helper]. *)
Definition afterFirstImport : Heap :=
  (ImportMap.resolveCustomToolModule machine 1 "./helper" (Some "/a") emptyHeap).2.

(** Two playgrounds, [a] and [a:b], each with one module resolved. *)
Definition optionsFor (id : string) : PlaygroundOptions :=
  {| pg_permissions := []; mockFetch := false; timeout := 30000; playgroundId := id |}.

Definition playgrounds : Heap :=
  ((ImportMap.createPlaygroundModuleResolver None None None "a" ;;;
    ImportMap.createPlaygroundModuleResolver None None None "a:b" ;;;
    ImportMap.playgroundResolve machine 0 (optionsFor "a") "react" ;;;
    ImportMap.playgroundResolve machine 0 (optionsFor "a:b") "zod") emptyHeap).2.

End Example.

(** ** More of the adapter and of the store *)

(** The histories of the permission store: what a sequence of calls to
    [grantPermission] and [revokePermission] makes of the initial state. *)
Module StoreHistory.
Import PermissionStore.

Inductive StoreCall : Type :=
  | CallGrant (tool : string) (perms : list CustomToolPermission) (now : Z)
  | CallRevoke (tool : string).

Definition call (state : CustomToolPermissionState) (c : StoreCall)
    : CustomToolPermissionState :=
  match c with
  | CallGrant tool perms now => grantPermission tool perms now state
  | CallRevoke tool => revokePermission tool state
  end.

Definition replay (calls : list StoreCall) : CustomToolPermissionState :=
  foldl call initial calls.

End StoreHistory.

(** [adaptCustomTools] of [custom-tool-registry.tsx], and the fallback
    rendering of a result ([renderToolResult] there, [CustomToolResult] in
    [custom-tool-result.tsx], [CustomToolResultFallback] in
    [custom-tool-ui-fallback.tsx]). *)
Module Adapters.
Import Registry.

(** [tools[definition.name] = adaptCustomTool(definition)] on the object
    literal [tools]: the map holds the object's own properties.  An
    assignment to [__proto__] goes to the setter the object inherits and
    adds no property. *)
Definition assign (tools : gmap string ToolWithUI) (definition : CustomToolDefinition)
    : gmap string ToolWithUI :=
  if String.eqb (name definition) "__proto__" then tools
  else <[name definition := adaptCustomTool definition]> tools.

Definition adaptCustomTools (definitions : list CustomToolDefinition)
    : gmap string ToolWithUI :=
  foldl assign ∅ definitions.

(** The props [CustomToolResultFallback] hands to [GenericToolResult]; a
    prop that is not passed is [undefined]. *)
Record ResultProps : Type := mkProps {
  success : Value;
  message : Value;
  error : Value;
}.

(** [a ?? b] *)
Definition coalesce (a b : Value) : Value := if nullish a then b else a.

Definition CustomToolResultFallback (message success error : Value) : ResultProps :=
  let resolvedSuccess := coalesce success (VBool (negb (truthy error))) in
  {| success := resolvedSuccess;
     message := coalesce message
                  (if truthy resolvedSuccess then VString "Custom tool executed"
                   else VUndefined);
     error := error |}.

(** What [renderToolResult] and [CustomToolResult] render for an object
    result when the definition has no [ui.Result] hook. *)
Definition fallbackResult (result : Value) : ResultProps :=
  let failure :=
    if truthy result && typeof_object result then
      let success := get_field "success" result in
      let error := get_field "error" result in
      match success with
      | VBool false => true
      | _ => truthy error
      end
    else false in
  if failure then
    let success := get_field "success" result in
    let error := get_field "error" result in
    CustomToolResultFallback VUndefined
      (coalesce success (VBool false))
      (if truthy error then error else VString "Custom tool failed")
  else
    let message :=
      match result with
      | VString s => VString s
      | _ => VString "Custom tool executed"
      end in
    CustomToolResultFallback message (VBool true) VUndefined.

End Adapters.

(** What a heap may become while modules are resolved: the module cache
    keeps its keys and may gain some; nothing else changes. *)
Definition heapExtends (h h' : Heap) : Prop :=
  dom (moduleCache h) ⊆ dom (moduleCache h')
  ∧ moduleRegistry h' = moduleRegistry h
  ∧ playgroundResolvers h' = playgroundResolvers h
  ∧ playgroundModuleCache h' = playgroundModuleCache h
  ∧ windowResolver h' = windowResolver h
  ∧ hasWindow h' = hasWindow h.

(** An asynchronous computation that only extends the heap. *)
Definition extending {A} (m : Async A) : Prop :=
  ∀ h, heapExtends h (m h).2.

(** Code that deals with its surroundings through [__require] only: it
    has no [Act] step. *)
Inductive quiet : Code -> Prop :=
  | quiet_Done exports : quiet (Done exports)
  | quiet_Raise e : quiet (Raise e)
  | quiet_Require specifier k :
      (forall r, quiet (k r)) ->
      quiet (Require specifier k).

(** * Properties *)

(** ** The permission store and the permission checks *)

Module PermissionProofs.
Import PermissionStore Permission.

Lemma getGrant_grantPermission tool perms now state :
  getGrant tool (grantPermission tool perms now state)
  = Some {| toolName := tool; permissions := perms; grantedAt := now |}.
Proof. unfold getGrant, grantPermission; simpl. apply lookup_insert_eq. Qed.

Lemma getGrant_grantPermission_ne tool other perms now state :
  other ≠ tool →
  getGrant other (grantPermission tool perms now state) = getGrant other state.
Proof.
  intros Hne. unfold getGrant, grantPermission; simpl.
  by rewrite lookup_insert_ne.
Qed.

Lemma getGrant_revokePermission tool state :
  getGrant tool (revokePermission tool state) = None.
Proof. unfold getGrant, revokePermission; simpl. apply lookup_delete_eq. Qed.

(** C5: [grantPermission] stores exactly the new permission list with the
    timestamp of the call, and a second grant to the same tool leaves the
    store as if the first had never been made: the record holds the second
    list only. *)
Theorem grantPermission_replaces (tool : string) (P1 P2 : list CustomToolPermission)
    (now1 now2 : Z) (state : CustomToolPermissionState) :
  getGrant tool (grantPermission tool P1 now1 state)
    = Some {| toolName := tool; permissions := P1; grantedAt := now1 |}
  ∧ getGrant tool (grantPermission tool P2 now2 (grantPermission tool P1 now1 state))
    = Some {| toolName := tool; permissions := P2; grantedAt := now2 |}
  ∧ grantPermission tool P2 now2 (grantPermission tool P1 now1 state)
    = grantPermission tool P2 now2 state.
Proof.
  split; [apply getGrant_grantPermission|].
  split; [apply getGrant_grantPermission|].
  unfold grantPermission; simpl. f_equal. apply insert_insert_eq.
Qed.

Example grant_filesystem_then_network :
  permissions <$> getGrant "t" (grantPermission "t" [Net] 2 (grantPermission "t" [Fs] 1 initial))
  = Some [Net].
Proof. by rewrite getGrant_grantPermission. Qed.

Lemma check_without_grant tool p rest state :
  getGrant tool state = None →
  checkCustomToolPermissions tool (p :: rest) state
  = {| allowed := false; missing := p :: rest |}.
Proof. intros Hnone. unfold checkCustomToolPermissions; simpl. by rewrite Hnone. Qed.

(** C9: with an empty request the check answers [allowed] with nothing
    missing whatever the store holds, also when the tool has no grant; a
    request that is not empty is answered from the store, and is refused
    whole when the tool's grant has just been revoked. *)
Theorem check_empty_request (tool : string) (state : CustomToolPermissionState)
    (p : CustomToolPermission) (rest : list CustomToolPermission) :
  checkCustomToolPermissions tool [] state = {| allowed := true; missing := [] |}
  ∧ checkCustomToolPermissions tool [] (revokePermission tool state)
    = {| allowed := true; missing := [] |}
  ∧ checkCustomToolPermissions tool (p :: rest) (revokePermission tool state)
    = {| allowed := false; missing := p :: rest |}.
Proof.
  split; [reflexivity|]. split; [reflexivity|].
  apply check_without_grant, getGrant_revokePermission.
Qed.

End PermissionProofs.

(** ** The tool adapter *)

Module RegistryProofs.
Import PermissionStore Permission Registry.

Lemma length_pos_nonempty {A} (l : list A) : l ≠ [] → (0 <? length l)%nat = true.
Proof. destruct l; [done|]. intros _. reflexivity. Qed.

(** C2, as the code has it: when the declared permission list is not
    empty, the wrapper calls the definition's [execute] on a store in which
    the tool's grant is exactly the declared list, stamped with the time of
    the call, whatever grant was there before, and every other tool's grant
    is as it was.  When the list is empty or absent the wrapper calls
    [execute] on the store unchanged. *)
Theorem execute_grants_declared (definition : CustomToolDefinition) (now : Z)
    (params context : Value) (state : CustomToolPermissionState) :
  (∀ requested, permissions definition = Some requested → requested ≠ [] →
     ∃ granted,
       tool_execute (adaptCustomTool definition) now params context state
         = execute definition params context granted
       ∧ getGrant (name definition) granted
         = Some {| toolName := name definition; PermissionStore.permissions := requested;
                   grantedAt := now |}
       ∧ ∀ other, other ≠ name definition → getGrant other granted = getGrant other state)
  ∧ (default [] (permissions definition) = [] →
     tool_execute (adaptCustomTool definition) now params context state
       = execute definition params context state).
Proof.
  split.
  - intros requested Hperm Hne.
    exists (grantPermission (name definition) requested now state).
    split; [|split].
    + simpl. rewrite Hperm; simpl. by rewrite (length_pos_nonempty _ Hne).
    + apply PermissionProofs.getGrant_grantPermission.
    + intros other Hother. by apply PermissionProofs.getGrant_grantPermission_ne.
  - intros Hempty. simpl. by rewrite Hempty.
Qed.

Lemma execute_grants_declared_witness :
  ∃ granted,
    tool_execute
      (adaptCustomTool
         {| name := "t"; description := None; args := VNull;
            permissions := Some [Net]; execute := fun _ _ s => (Ok VNull, s);
            hidden := None |}) 7 VNull VNull (grantPermission "t" [Fs] 1 initial)
      = (Ok VNull, granted)
    ∧ getGrant "t" granted
      = Some {| toolName := "t"; PermissionStore.permissions := [Net]; grantedAt := 7 |}.
Proof.
  destruct (proj1 (execute_grants_declared
             {| name := "t"; description := None; args := VNull;
                permissions := Some [Net]; execute := fun _ _ s => (Ok VNull, s);
                hidden := None |} 7 VNull VNull (grantPermission "t" [Fs] 1 initial))
             [Net] eq_refl ltac:(discriminate)) as (granted & Hrun & Hgrant & _).
  exists granted. split; [exact Hrun | exact Hgrant].
Defined.

(** C2, against the sentence as the specification words it: a definition that declares
    the empty list runs on the store as it was.  The grant made earlier is
    still there when [execute] is called, so the empty list has not replaced
    it. *)
Lemma execute_empty_list_grants_nothing :
  let definition :=
    {| name := "t"; description := None; args := VNull;
       permissions := Some []; execute := fun _ _ s => (Ok VNull, s);
       hidden := None |} in
  let state := grantPermission "t" [Fs] 1 initial in
  ¬ ∃ granted,
      tool_execute (adaptCustomTool definition) 7 VNull VNull state
        = execute definition VNull VNull granted
      ∧ getGrant "t" granted
        = Some {| toolName := "t"; PermissionStore.permissions := []; grantedAt := 7 |}.
Proof.
  intros definition state (granted & Hrun & Hgrant).
  simpl in Hrun. injection Hrun as <-.
  subst state. rewrite PermissionProofs.getGrant_grantPermission in Hgrant.
  discriminate.
Qed.

End RegistryProofs.

(** ** The module resolver *)

Module ImportMapProofs.
Import JsString ImportMap.

(** C10: [unregisterPlaygroundResolver] takes the given playground's
    resolver out of the table and leaves every other registration in place,
    and it empties the playground module cache: afterwards no entry is left
    under any playground id. *)
Theorem unregister_clears_whole_cache (id : string) (h : Heap) :
  let h' := (unregisterPlaygroundResolver id h).2 in
  (unregisterPlaygroundResolver id h).1 = Resolved tt
  ∧ playgroundResolvers h' !! id = None
  ∧ (∀ other, other ≠ id → playgroundResolvers h' !! other = playgroundResolvers h !! other)
  ∧ playgroundModuleCache h' = ∅
  ∧ (∀ anyId specifier, playgroundModuleCache h' !! playgroundKey anyId specifier = None)
  ∧ moduleCache h' = moduleCache h.
Proof.
  cbn. split; [reflexivity|].
  split; [apply lookup_delete_eq|].
  split; [intros other Hne; by apply lookup_delete_ne|].
  split; [reflexivity|].
  split; [intros; apply lookup_empty | reflexivity].
Qed.

Lemma unregister_clears_whole_cache_witness :
  playgroundModuleCache Example.playgrounds !! playgroundKey "a:b" "zod" = Some (VModule "zod")
  ∧ playgroundResolvers (unregisterPlaygroundResolver "a" Example.playgrounds).2 !! "a:b"
    = Some (Example.optionsFor "a:b")
  ∧ playgroundModuleCache (unregisterPlaygroundResolver "a" Example.playgrounds).2
      !! playgroundKey "a:b" "zod" = None.
Proof.
  destruct (unregister_clears_whole_cache "a" Example.playgrounds)
    as (_ & _ & Hother & _ & Hcache & _).
  split; [vm_compute; reflexivity|].
  split.
  - rewrite Hother; [vm_compute; reflexivity | discriminate].
  - apply Hcache.
Defined.

(** *** Clearing one playground's cache entries *)

Lemma clearKeys_lookup (id : string) (keys : list string) (cache : gmap string Value)
    (k : string) :
  clearKeys id keys cache !! k
  = if bool_decide (k ∈ keys) && startsWith k (id +:+ ":") then None else cache !! k.
Proof.
  unfold clearKeys. revert cache.
  induction keys as [|key keys IH]; intros cache; simpl; [done|].
  rewrite IH. clear IH.
  destruct (decide (k = key)) as [->|Hne].
  - rewrite (bool_decide_eq_true_2 (key ∈ key :: keys)) by left.
    destruct (startsWith key (id +:+ ":")) eqn:Hstart; simpl.
    + rewrite andb_true_r. case_bool_decide; [done|]. apply lookup_delete_eq.
    + by rewrite andb_false_r.
  - assert (bool_decide (k ∈ key :: keys) = bool_decide (k ∈ keys)) as ->.
    { apply bool_decide_ext. rewrite elem_of_cons.
      split; [intros [Heq|Hin]; [by destruct Hne | exact Hin] | by right]. }
    destruct (bool_decide (k ∈ keys) && startsWith k (id +:+ ":")); [done|].
    destruct (startsWith key (id +:+ ":")); [|done].
    by rewrite lookup_delete_ne.
Qed.

Lemma clearPlaygroundCache_lookup (id : string) (h : Heap) (k : string) :
  playgroundModuleCache (clearPlaygroundCache id h).2 !! k
  = if startsWith k (id +:+ ":") then None else playgroundModuleCache h !! k.
Proof.
  cbn. rewrite clearKeys_lookup.
  destruct (startsWith k (id +:+ ":")); [|by rewrite andb_false_r].
  rewrite andb_true_r. case_bool_decide as Hin; [done|].
  destruct (playgroundModuleCache h !! k) as [v|] eqn:Hk; [|done].
  exfalso. apply Hin. apply list_elem_of_fmap. exists (k, v).
  split; [done|]. by apply elem_of_map_to_list.
Qed.

Lemma chars_append (a b : string) : chars (a +:+ b) = chars a ++ chars b.
Proof. induction a as [|c a IH]; simpl; [done|]. unfold chars in *; simpl. by rewrite IH. Qed.

Lemma append_assoc (a b c : string) : a +:+ b +:+ c = (a +:+ b) +:+ c.
Proof.
  induction a as [|x a IH]; [done|].
  change (String x (a +:+ b +:+ c) = String x ((a +:+ b) +:+ c)). by rewrite IH.
Qed.

Lemma startsWith_append (a b : string) : startsWith (a +:+ b) a = true.
Proof.
  unfold startsWith. apply bool_decide_eq_true_2.
  rewrite chars_append. by apply prefix_app_r.
Qed.

(** The part of C8 that holds for every id: clearing [A] removes every
    entry recorded under [A], and keeps every key that does not begin with
    [A:]. *)
Lemma clearPlaygroundCache_removes (A specifier : string) (h : Heap) :
  playgroundModuleCache (clearPlaygroundCache A h).2 !! playgroundKey A specifier = None.
Proof.
  rewrite clearPlaygroundCache_lookup. unfold playgroundKey.
  assert (startsWith (A +:+ ":" +:+ specifier) (A +:+ ":") = true) as ->; [|done].
  rewrite append_assoc. apply startsWith_append.
Qed.

Lemma clearPlaygroundCache_keeps (A : string) (h : Heap) (k : string) :
  startsWith k (A +:+ ":") = false →
  playgroundModuleCache (clearPlaygroundCache A h).2 !! k = playgroundModuleCache h !! k.
Proof. intros Hk. by rewrite clearPlaygroundCache_lookup, Hk. Qed.

(** C8, the code at the failing input: the playground ids [a] and [a:b]
    are distinct, the entry [a:b:zod] was recorded by the resolver of
    playground [a:b], and [clearPlaygroundCache "a"] deletes it together
    with the entries of [a]. *)
Theorem clear_deletes_other_playground :
  playgroundModuleCache Example.playgrounds !! playgroundKey "a" "react" = Some (VModule "react")
  ∧ playgroundModuleCache Example.playgrounds !! playgroundKey "a:b" "zod" = Some (VModule "zod")
  ∧ playgroundModuleCache (clearPlaygroundCache "a" Example.playgrounds).2
      !! playgroundKey "a" "react" = None
  ∧ playgroundModuleCache (clearPlaygroundCache "a" Example.playgrounds).2
      !! playgroundKey "a:b" "zod" = None.
Proof. vm_compute. repeat split. Qed.

(** *** Relative imports from two directories *)

(** The lookup under the literal text comes first: whatever is cached
    under [alias] is the answer for every base directory. *)
Lemma resolveWith_cache_hit (H : Host) (loadFile : string → Async Value)
    (alias : string) (baseDir : option string) (h : Heap) (cached : Value) :
  moduleCache h !! alias = Some cached →
  resolveWith H loadFile alias baseDir h = (Resolved cached, h).
Proof. intros Hhit. unfold resolveWith, bind, get_heap. by rewrite Hhit. Qed.

(** A relative import that had to load its file leaves the module in the
    cache under the literal text of the specifier. *)
Lemma resolveWith_caches_alias (H : Host) (loadFile : string → Async Value)
    (alias baseDir resolvedPath : string) (h h' : Heap) (module : Value) :
  moduleCache h !! alias = None →
  startsWith alias "./" || startsWith alias "../" = true →
  baseDir ≠ "" →
  resolveRelativePath H baseDir alias h = (Resolved resolvedPath, h) →
  moduleCache h !! ("file:" +:+ resolvedPath) = None →
  loadFile resolvedPath h = (Resolved module, h') →
  resolveWith H loadFile alias (Some baseDir) h
  = (Resolved module,
     set_moduleCache (insert alias module)
       (set_moduleCache (insert ("file:" +:+ resolvedPath) module) h')).
Proof.
  intros Hmiss Hrelative Hbase Hpath Hfile Hload.
  unfold resolveWith, bind at 1, get_heap. rewrite Hmiss, Hrelative.
  unfold noBaseDir. rewrite (proj2 (String.eqb_neq _ _) Hbase).
  unfold bind at 1. cbn [default]. unfold id. rewrite Hpath.
  unfold bind at 1. rewrite Hfile.
  unfold bind at 1. rewrite Hload. reflexivity.
Qed.

(** C1, the code at the failing input: [/a/helper] and [/b/helper] are
    different files with different modules, and the two imports of
    [./helper] resolve to different paths; yet the second import, from
    [/b], is answered with the module of [/a/helper], found in the cache
    under the text [./helper], and no entry is made for [/b/helper]. *)
Theorem second_import_answered_from_first :
  let first := resolveCustomToolModule Example.machine 1 "./helper" (Some "/a") emptyHeap in
  let second := resolveCustomToolModule Example.machine 1 "./helper" (Some "/b") first.2 in
  (resolveRelativePath Example.machine "/a" "./helper" emptyHeap).1 = Resolved "/a/helper"
  ∧ (resolveRelativePath Example.machine "/b" "./helper" emptyHeap).1 = Resolved "/b/helper"
  ∧ (loadAndCompileFile Example.machine 1 "/a/helper" emptyHeap).1
    = Resolved (VObject [("name", VString "helper-a")])
  ∧ (loadAndCompileFile Example.machine 1 "/b/helper" emptyHeap).1
    = Resolved (VObject [("name", VString "helper-b")])
  ∧ first.1 = Resolved (VObject [("name", VString "helper-a")])
  ∧ second.1 = Resolved (VObject [("name", VString "helper-a")])
  ∧ moduleCache second.2 !! "file:/a/helper" = Some (VObject [("name", VString "helper-a")])
  ∧ moduleCache second.2 !! "file:/b/helper" = None.
Proof. vm_compute. repeat split. Qed.

(** *** Specifiers that resolve to nothing *)

Lemma firstLoader_none (H : Host) (candidates : list string) :
  (∀ candidate, candidate ∈ candidates → internalModuleLoaders H !! candidate = None) →
  firstLoader H candidates = Ok VUndefined.
Proof.
  induction candidates as [|c rest IH]; intros Hnone; simpl; [done|].
  rewrite (Hnone c) by left. apply IH. intros c' Hc'. apply Hnone. by right.
Qed.

Lemma resolveWith_not_found (H : Host) (loadFile : string → Async Value)
    (alias : string) (baseDir : option string) (h : Heap) :
  startsWith alias "./" = false →
  startsWith alias "../" = false →
  moduleCache h !! alias = None →
  inRegistry alias (moduleRegistry h) = false →
  alias ∉ builtinLoaders →
  (∀ candidate, candidate ∈ buildInternalCandidates alias →
     internalModuleLoaders H !! candidate = None) →
  resolveWith H loadFile alias baseDir h = (Resolved VUndefined, h).
Proof.
  intros Hdot Hdotdot Hcache Hregistry Hbuiltin Hinternal.
  unfold resolveWith, bind, get_heap.
  rewrite Hcache, Hdot, Hdotdot, Hregistry; simpl.
  rewrite bool_decide_eq_false_2 by done.
  unfold loadInternalModule, host.
  by rewrite (firstLoader_none _ _ Hinternal).
Qed.

(** A module's code that never calls [__require] with [alias] cannot tell
    two resolvers apart that differ at [alias] only. *)
Lemma run_avoids (resolver resolver' : string → option string → Async Value)
    (alias : string) (wrapperBase : option string) :
  (∀ specifier base h, specifier ≠ alias → resolver' specifier base h = resolver specifier base h) →
  ∀ c, Compiler.avoids alias c →
  ∀ cache h, Compiler.run resolver' wrapperBase c cache h
             = Compiler.run resolver wrapperBase c cache h.
Proof.
  intros Hsame c Hc.
  induction Hc as [exports|e|specifier k Hne _ IH|effect k _ IH]; intros cache h; simpl;
    [done|done| |apply IH].
  assert (Compiler.require resolver' wrapperBase specifier cache h
          = Compiler.require resolver wrapperBase specifier cache h) as ->.
  { unfold Compiler.require. destruct (cache !! specifier); [done|].
    unfold bind, Compiler.callWindowResolver, bind, get_heap.
    destruct (windowResolver h); [|done]. by rewrite Hsame. }
  destruct (Compiler.require resolver wrapperBase specifier cache h) as [[[v cache']|e|] h'];
    [apply IH | apply IH | done].
Qed.

(** C3, as the code has it.  A specifier that is not relative, has no
    entry in the resolution cache, is no property of the registry object
    (neither registered nor inherited from [Object.prototype]), is not one
    of the built-in names and has no internal module behind any of its
    candidates resolves to [undefined]: the call does not reject and the
    heap is as before.  The rejection comes from the wrapper's [__require]
    and only at the call: code that reaches [__require(alias)] goes on with
    the error [Custom tool import not found], and a module, or any code of
    it, that never makes that call runs exactly as it would if [alias]
    could be resolved. *)
Theorem unresolved_import_fails_lazily (H : Host) (fuel : nat) (alias : string)
    (baseDir : option string) (h : Heap) :
  startsWith alias "./" = false →
  startsWith alias "../" = false →
  moduleCache h !! alias = None →
  inRegistry alias (moduleRegistry h) = false →
  alias ∉ builtinLoaders →
  (∀ candidate, candidate ∈ buildInternalCandidates alias →
     internalModuleLoaders H !! candidate = None) →
  resolveCustomToolModule H fuel alias baseDir h = (Resolved VUndefined, h)
  ∧ (∀ installed wrapperBase cache k,
       windowResolver h = Some installed → cache !! alias = None →
       Compiler.run (resolveCustomToolModule H fuel) wrapperBase (Require alias k) cache h
       = Compiler.run (resolveCustomToolModule H fuel) wrapperBase
           (k (Throw (Compiler.importNotFound alias))) cache h)
  ∧ (∀ resolver' wrapperBase c cache h0,
       (∀ specifier base h1, specifier ≠ alias →
          resolver' specifier base h1 = resolveCustomToolModule H fuel specifier base h1) →
       Compiler.avoids alias c →
       Compiler.run resolver' wrapperBase c cache h0
       = Compiler.run (resolveCustomToolModule H fuel) wrapperBase c cache h0)
  ∧ (∀ resolver' url h0,
       (∀ specifier base h1, specifier ≠ alias →
          resolver' specifier base h1 = resolveCustomToolModule H fuel specifier base h1) →
       Compiler.avoids alias (evaluate H (Compiler.transformed url)) →
       Compiler.resolveCustomToolDefinition resolver' H url h0
       = Compiler.resolveCustomToolDefinition (resolveCustomToolModule H fuel) H url h0).
Proof.
  intros Hdot Hdotdot Hcache Hregistry Hbuiltin Hinternal.
  assert (∀ base, resolveCustomToolModule H fuel alias base h = (Resolved VUndefined, h))
    as Hresolve.
  { intros base. by apply resolveWith_not_found. }
  split; [apply Hresolve|]. split; [|split].
  - intros installed wrapperBase cache k Hinstalled Hmiss. simpl.
    unfold Compiler.require. rewrite Hmiss.
    unfold bind at 1. unfold Compiler.callWindowResolver, bind, get_heap.
    by rewrite Hinstalled, Hresolve.
  - intros resolver' wrapperBase c cache h0 Hsame Hc. by apply (run_avoids _ _ alias).
  - intros resolver' url h0 Hsame Hc.
    unfold Compiler.resolveCustomToolDefinition, Compiler.load, bind.
    by rewrite (run_avoids _ _ alias _ Hsame _ Hc).
Qed.

Lemma unresolved_import_fails_lazily_witness :
  let h := (Compiler.registerCustomToolModuleResolver None emptyHeap).2 in
  resolveCustomToolModule Example.machine 0 "left-pad" None h = (Resolved VUndefined, h)
  ∧ Compiler.run (resolveCustomToolModule Example.machine 0) None
      (Require "left-pad" (fun r => match r with Ok v => Done v | Throw e => Raise e end))
      ∅ h
    = (Rejected (Compiler.importNotFound "left-pad"), h).
Proof.
  intros h.
  destruct (unresolved_import_fails_lazily Example.machine 0 "left-pad" None h)
    as (Hresolve & Hrun & _).
  - reflexivity.
  - reflexivity.
  - reflexivity.
  - reflexivity.
  - intros Hin. repeat (apply elem_of_cons in Hin as [Heq|Hin]; [discriminate|]).
    by apply elem_of_nil in Hin.
  - intros candidate Hin. vm_compute in Hin. by apply elem_of_nil in Hin.
  - split; [exact Hresolve|].
    rewrite (Hrun None None ∅ _ eq_refl (lookup_empty _)). reflexivity.
Defined.

(** C3, against the sentence as the specification words it.  [toString] was never
    registered, is no built-in name and no internal alias, and on the
    initial heap it resolves to the function the registry object inherits.
    [file:/a/helper] is as little registered, and once a tool in [/a] has
    imported [./helper] it resolves to that module, from the cache. *)
Lemma unregistered_specifiers_resolve :
  (startsWith "toString" "./" = false
   ∧ startsWith "toString" "../" = false
   ∧ moduleRegistry emptyHeap !! "toString" = None
   ∧ ("toString" ∉ builtinLoaders)
   ∧ buildInternalCandidates "toString" = []
   ∧ (resolveCustomToolModule Example.machine 0 "toString" None emptyHeap).1
     = Resolved (VFunction "Object.prototype.toString"))
  ∧ (startsWith "file:/a/helper" "./" = false
     ∧ startsWith "file:/a/helper" "../" = false
     ∧ moduleRegistry Example.afterFirstImport !! "file:/a/helper" = None
     ∧ ("file:/a/helper" ∉ builtinLoaders)
     ∧ buildInternalCandidates "file:/a/helper" = []
     ∧ (resolveCustomToolModule Example.machine 0 "file:/a/helper" None
          Example.afterFirstImport).1
       = Resolved (VObject [("name", VString "helper-a")])).
Proof.
  assert (∀ alias : string, bool_decide (alias ∈ builtinLoaders) = false → alias ∉ builtinLoaders)
    as Hnot by (intros alias; apply bool_decide_eq_false_1).
  repeat split; try (vm_compute; reflexivity); by apply Hnot.
Qed.

End ImportMapProofs.

(** ** Regular expressions *)

Module RegexProofs.
Import JsString Regex.

Lemma chars_of_chars (l : list ascii) : chars (of_chars l) = l.
Proof. apply String.list_ascii_of_string_of_list_ascii. Qed.

(** With the [i] flag, a character of the tool file pattern matches the
    characters that are equal to it in lower case. *)
Lemma sameChar_lower (p c : ascii) :
  p ∈ chars "tol.sx-_" →
  sameChar true p c = true ↔ lower c = p.
Proof.
  intros Hp.
  repeat (apply elem_of_cons in Hp as [->|Hp]);
    [destruct c as [[] [] [] [] [] [] [] []]; vm_compute; split; congruence ..|].
  by apply elem_of_nil in Hp.
Qed.

Lemma lower_separator (c : ascii) :
  lower c = "-"%char ∨ lower c = "_"%char ↔ c = "-"%char ∨ c = "_"%char.
Proof.
  destruct c as [[] [] [] [] [] [] [] []]; vm_compute;
    split; (intros [Heq|Heq]; [left|right]; congruence).
Qed.

Lemma search_is_Some (ic : bool) (p : Pattern) (s : list ascii) :
  is_Some (search ic p s) ↔ ∃ s1 s2, s = s1 ++ s2 ∧ matchHere ic p s2 = true.
Proof.
  induction s as [|c s IH]; simpl.
  - destruct (matchHere ic p []) eqn:Hm.
    + split; [intros _; by exists [], [] | eauto].
    + split; [by intros [? ?]|].
      intros (s1 & s2 & Heq & Hs2). symmetry in Heq.
      apply app_eq_nil in Heq as [-> ->]. congruence.
  - destruct (matchHere ic p (c :: s)) eqn:Hm.
    + split; [intros _; by exists [], (c :: s) | eauto].
    + rewrite fmap_is_Some, IH. split.
      * intros (s1 & s2 & -> & Hs2). by exists (c :: s1), s2.
      * intros (s1 & s2 & Heq & Hs2). destruct s1 as [|c' s1]; simpl in Heq.
        -- subst s2. congruence.
        -- injection Heq as -> ->. by exists s1, s2.
Qed.

Lemma star_true (ic : bool) (a : CharSet) (k : list ascii → bool) (s : list ascii) :
  star ic a k s = true
  ↔ ∃ s1 s2, s = s1 ++ s2 ∧ Forall (fun c => accepts ic a c = true) s1 ∧ k s2 = true.
Proof.
  induction s as [|c s IH]; simpl.
  - split.
    + intros Hk. by exists [], [].
    + intros (s1 & s2 & Heq & _ & Hk). symmetry in Heq.
      by apply app_eq_nil in Heq as [-> ->].
  - rewrite orb_true_iff, andb_true_iff, IH. split.
    + intros [[Hc (s1 & s2 & -> & Hs1 & Hk)] | Hk].
      * exists (c :: s1), s2. by repeat split; [constructor|].
      * by exists [], (c :: s).
    + intros (s1 & s2 & Heq & Hs1 & Hk). destruct s1 as [|c' s1]; simpl in Heq.
      * subst s2. by right.
      * injection Heq as -> ->. apply Forall_cons in Hs1 as [Hc Hs1].
        left. split; [done|]. by exists s1, s2.
Qed.

(** A run of literal characters of the pattern, under the [i] flag. *)
Lemma matchHere_literals (ps : list ascii) (rest : Pattern) (s : list ascii) :
  Forall (fun p => p ∈ chars "tol.sx-_") ps →
  matchHere true (((fun p => One (Lit p)) <$> ps) ++ rest) s = true
  ↔ ∃ s1 s2, s = s1 ++ s2 ∧ lower <$> s1 = ps ∧ matchHere true rest s2 = true.
Proof.
  intros Hps. revert s. induction Hps as [|p ps Hp _ IH]; intros s.
  - simpl. split; [intros Hm; by exists [], s|].
    intros (s1 & s2 & -> & Hs1 & Hm). by apply fmap_nil_inv in Hs1 as ->.
  - cbn [fmap list_fmap app matchHere]. destruct s as [|c s].
    + split; [done|]. intros (s1 & s2 & Heq & Hs1 & _).
      symmetry in Heq. apply app_eq_nil in Heq as [-> _]. done.
    + cbn [accepts]. rewrite andb_true_iff, (sameChar_lower p c Hp), IH. split.
      * intros [<- (s1 & s2 & -> & <- & Hm)]. by exists (c :: s1), s2.
      * intros (s1 & s2 & Heq & Hs1 & Hm). destruct s1 as [|c' s1]; [done|].
        simpl in Heq, Hs1. injection Heq as -> ->. injection Hs1 as Hc Hs1.
        split; [done|]. by exists s1, s2.
Qed.

(** [x?$] under the [i] flag: nothing, or one [x] of either case. *)
Lemma matchHere_optional_x (s : list ascii) :
  matchHere true [Opt (Lit "x"); End] s = true
  ↔ lower <$> s = [] ∨ lower <$> s = ["x"%char].
Proof.
  destruct s as [|c [|c' s]]; cbn [matchHere accepts fmap list_fmap].
  - split; [by left | done].
  - rewrite orb_false_r, andb_true_r.
    rewrite (sameChar_lower "x" c) by (rewrite list_elem_of_In; simpl; tauto).
    split; [intros ->; by right | intros [?|[= ?]]; done].
  - rewrite orb_false_r, andb_false_r. split; [done | intros [?|?]; done].
Qed.

(** [search] gives the first position from which the pattern matches. *)
Lemma search_Some (ic : bool) (p : Pattern) (s : list ascii) (n : nat) :
  search ic p s = Some n
  ↔ (n ≤ length s)%nat ∧ matchHere ic p (drop n s) = true
    ∧ ∀ m, (m < n)%nat → matchHere ic p (drop m s) = false.
Proof.
  revert n. induction s as [|c s IH]; intros n; simpl.
  - destruct (matchHere ic p []) eqn:Hm.
    + split.
      * intros [= <-]. repeat split; [lia|done|lia].
      * intros (Hn & _ & _). f_equal. lia.
    + split; [done|]. intros (_ & Hmatch & _). rewrite drop_nil in Hmatch. congruence.
  - destruct (matchHere ic p (c :: s)) eqn:Hm.
    + split.
      * intros [= <-]. repeat split; [lia|done|lia].
      * intros (_ & _ & Hfirst). destruct n as [|n]; [done|].
        specialize (Hfirst 0%nat ltac:(lia)). simpl in Hfirst. congruence.
    + rewrite fmap_Some. destruct n as [|n].
      * split; [by intros (k & _ & [=])|]. intros (_ & Hmatch & _).
        simpl in Hmatch. congruence.
      * split.
        -- intros (k & Hsearch & [= ->]).
           apply IH in Hsearch as (Hk & Hmatch & Hfirst).
           repeat split; [lia|done|]. intros [|m] Hlt; [done|].
           simpl. apply Hfirst. lia.
        -- intros (Hn & Hmatch & Hfirst). exists n. split; [|done].
           apply IH. repeat split; [lia|done|].
           intros m Hlt. apply (Hfirst (S m)). lia.
Qed.

Lemma search_None (ic : bool) (p : Pattern) (s : list ascii) :
  search ic p s = None ↔ ∀ m, matchHere ic p (drop m s) = false.
Proof.
  split.
  - intros Hnone m. destruct (matchHere ic p (drop m s)) eqn:Hm; [|done].
    assert (is_Some (search ic p s)) as [n Hn]; [|congruence].
    apply search_is_Some. exists (take m s), (drop m s). by rewrite take_drop.
  - intros Hall. destruct (search ic p s) as [n|] eqn:Hsearch; [|done].
    apply search_Some in Hsearch as (_ & Hmatch & _). by rewrite Hall in Hmatch.
Qed.

(** [[-_]] under the [i] flag. *)
Lemma accepts_separator (c : ascii) :
  accepts true (OneOf ["-"; "_"]%char) c = true ↔ c = "-"%char ∨ c = "_"%char.
Proof.
  cbn [accepts existsb]. rewrite orb_false_r, orb_true_iff.
  rewrite !sameChar_lower by (rewrite list_elem_of_In; simpl; tauto).
  apply lower_separator.
Qed.

End RegexProofs.

(** ** Discovery and loading *)

Module LoaderProofs.
Import JsString Regex Loader RegexProofs.

(** *** Which directory entries are tool files *)

(** The tool file pattern finds a match exactly in the names that end, in
    lower case, with a separator, [tool.ts] and at most one [x]. *)
Lemma toolFilePattern_search (s : list ascii) :
  is_Some (search true toolFilePattern s)
  ↔ ∃ sep xs, (sep = "-"%char ∨ sep = "_"%char) ∧ (xs = [] ∨ xs = ["x"%char])
      ∧ (sep :: chars "tool.ts" ++ xs) `suffix_of` (lower <$> s).
Proof.
  rewrite search_is_Some.
  change toolFilePattern with
    (Star Dot :: One (OneOf ["-"; "_"]%char)
       :: ((fun p => One (Lit p)) <$> chars "tool.ts") ++ [Opt (Lit "x"); End]).
  assert (Forall (fun p => p ∈ chars "tol.sx-_") (chars "tool.ts")) as Hlits.
  { repeat constructor; rewrite list_elem_of_In; simpl; tauto. }
  split.
  - intros (s1 & s2 & -> & Hm). cbn [matchHere] in Hm.
    apply star_true in Hm as (dots & s3 & -> & _ & Hm).
    destruct s3 as [|c s4]; [done|].
    apply andb_true_iff in Hm as [Hsep Hm].
    apply accepts_separator in Hsep.
    apply (matchHere_literals _ _ _ Hlits) in Hm as (s5 & s6 & -> & Hs5 & Htail).
    apply matchHere_optional_x in Htail.
    exists c, (lower <$> s6). split; [done|]. split; [done|].
    exists (lower <$> (s1 ++ dots)).
    rewrite !fmap_app, fmap_cons, fmap_app, Hs5, <- !(assoc_L (++)).
    do 2 f_equal. simpl. f_equal. destruct Hsep as [->| ->]; reflexivity.
  - intros (sep & xs & Hsep & Hxs & (k & Hk)).
    apply fmap_app_inv in Hk as (s1 & s2 & -> & Hs2 & ->).
    symmetry in Hs2. apply fmap_cons_inv in Hs2 as (c & s4 & Hc & Hs4 & ->).
    symmetry in Hs4. apply fmap_app_inv in Hs4 as (s5 & s6 & Hs5 & Hs6 & ->).
    exists s1, (c :: s5 ++ s6). split; [done|].
    cbn [matchHere]. apply star_true. exists [], (c :: s5 ++ s6).
    split; [done|]. split; [constructor|].
    apply andb_true_iff. split.
    + apply accepts_separator, lower_separator. by rewrite <- Hc.
    + apply (matchHere_literals _ _ _ Hlits). exists s5, s6.
      split; [done|]. split; [done|].
      apply matchHere_optional_x. by rewrite <- Hs6.
Qed.

Lemma endsWith_true (s p : string) :
  endsWith s p = true ↔ chars p `suffix_of` chars s.
Proof. unfold endsWith. apply bool_decide_eq_true. Qed.

Lemma hasCustomToolExtension_true (fileName : string) :
  hasCustomToolExtension fileName = true
  ↔ ∃ suffix, suffix ∈ toolSuffixes ∧ endsWith (toLowerCase fileName) suffix = true.
Proof.
  unfold hasCustomToolExtension, test.
  rewrite bool_decide_eq_true, toolFilePattern_search. split.
  - intros (sep & xs & Hsep & Hxs & Hsuffix).
    exists (of_chars (sep :: chars "tool.ts" ++ xs)). split.
    + unfold toolSuffixes. rewrite list_elem_of_In.
      destruct Hsep as [->| ->], Hxs as [->| ->]; simpl; tauto.
    + apply endsWith_true. unfold toLowerCase. by rewrite !chars_of_chars.
  - intros (suffix & Hin & Hends).
    apply endsWith_true in Hends. unfold toLowerCase in Hends.
    rewrite chars_of_chars in Hends.
    unfold toolSuffixes in Hin. rewrite list_elem_of_In in Hin. simpl in Hin.
    destruct Hin as [<-|[<-|[<-|[<-|[]]]]].
    + exists "-"%char, []. auto.
    + exists "_"%char, []. auto.
    + exists "-"%char, ["x"%char]. auto.
    + exists "_"%char, ["x"%char]. auto.
Qed.

(** A name that ends in [.d.ts] ends with none of the tool suffixes. *)
Lemma declaration_file_no_tool (fileName suffix : string) :
  suffix ∈ toolSuffixes →
  endsWith fileName ".d.ts" = true →
  endsWith (toLowerCase fileName) suffix = false.
Proof.
  intros Hin Hd. apply not_true_iff_false. intros Hends.
  apply endsWith_true in Hd as (k & Hk).
  apply endsWith_true in Hends as (k' & Hk').
  unfold toLowerCase in Hk'. rewrite chars_of_chars, Hk, fmap_app in Hk'.
  unfold toolSuffixes in Hin. rewrite list_elem_of_In in Hin. simpl in Hin.
  assert (∀ (a b : list ascii) x y, a ++ [x] = b ++ [y] → a = b ∧ x = y) as Hsnoc.
  { intros a b x y Heq. apply app_inj_tail in Heq. done. }
  destruct Hin as [<-|[<-|[<-|[<-|[]]]]]; cbn in Hk';
    repeat match type of Hk' with
    | ?a ++ ?x :: ?r1 :: ?rest = _ =>
        change (a ++ x :: r1 :: rest) with (a ++ [x] ++ r1 :: rest) in Hk';
        rewrite (assoc_L (++) a [x]) in Hk'
    | _ = ?a ++ ?x :: ?r1 :: ?rest =>
        change (a ++ x :: r1 :: rest) with (a ++ [x] ++ r1 :: rest) in Hk';
        rewrite (assoc_L (++) a [x]) in Hk'
    end;
    repeat (apply Hsnoc in Hk' as [Hk' ?]); discriminate.
Qed.

(** C6, as the code has it: an entry is kept exactly when it is a file
    whose name ends, whatever the case of its letters, with [-tool] or
    [_tool] right before [.ts] or [.tsx]; and an entry whose name ends in
    [.d.ts] is never kept. *)
Theorem candidate_iff_tool_suffix (entry : DirEntry) :
  (isCandidate entry = true
   ↔ isFile entry = true
     ∧ ∃ suffix, suffix ∈ toolSuffixes
         ∧ endsWith (toLowerCase (entry_name entry)) suffix = true)
  ∧ (endsWith (entry_name entry) ".d.ts" = true → isCandidate entry = false).
Proof.
  unfold isCandidate. split.
  - rewrite !andb_true_iff, negb_true_iff, hasCustomToolExtension_true. split.
    + intros [[Hfile _] Hsuffix]. done.
    + intros [Hfile (suffix & Hin & Hends)]. split; [split; [done|] | by exists suffix].
      destruct (endsWith (entry_name entry) ".d.ts") eqn:Hd; [|done].
      by rewrite (declaration_file_no_tool _ _ Hin Hd) in Hends.
  - intros ->. by rewrite andb_false_r.
Qed.

Lemma candidate_iff_tool_suffix_witness :
  isCandidate {| entry_name := "Weather-TOOL.tsx"; isFile := true |} = true
  ∧ isCandidate {| entry_name := "weather-tool.d.ts"; isFile := true |} = false.
Proof.
  split.
  - apply (proj1 (candidate_iff_tool_suffix
                    {| entry_name := "Weather-TOOL.tsx"; isFile := true |})).
    split; [reflexivity|]. exists "-tool.tsx". split.
    + rewrite list_elem_of_In. simpl. tauto.
    + vm_compute. reflexivity.
  - apply (proj2 (candidate_iff_tool_suffix
                    {| entry_name := "weather-tool.d.ts"; isFile := true |})).
    vm_compute. reflexivity.
Defined.

(** C6, against the sentence as the specification words it: [my_tool.ts] does not end
    with [-tool] before its extension, and it is kept. *)
Lemma underscore_tool_is_kept :
  isCandidate {| entry_name := "my_tool.ts"; isFile := true |} = true
  ∧ ¬ specifiedCandidate {| entry_name := "my_tool.ts"; isFile := true |}.
Proof.
  split; [vm_compute; reflexivity|].
  intros (_ & [Hends|Hends] & _); vm_compute in Hends; discriminate.
Qed.

(** *** Trailing slashes *)

Lemma of_chars_inj_chars (s : string) : of_chars (chars s) = s.
Proof. apply String.string_of_list_ascii_of_string. Qed.

(** [\/+$]: a run of slashes, not empty, to the end. *)
Lemma trailingSlashes_match (s : list ascii) :
  matchHere false trailingSlashes s = true
  ↔ s ≠ [] ∧ Forall (fun c => c = "/"%char) s.
Proof.
  unfold trailingSlashes. cbn [matchHere].
  destruct s as [|c s]; [split; [done | by intros [? _]]|].
  cbn [accepts sameChar]. rewrite andb_true_iff, bool_decide_eq_true, star_true. split.
  - intros [<- (s1 & s2 & -> & Hs1 & Hend)]. split; [done|].
    destruct s2; [|done]. rewrite app_nil_r. constructor; [done|].
    eapply Forall_impl; [exact Hs1|]. intros x Hx. cbn in Hx.
    by apply bool_decide_eq_true in Hx.
  - intros [_ Hall]. apply Forall_cons in Hall as [-> Hall]. split; [done|].
    exists s, []. rewrite app_nil_r. split; [done|]. split; [|done].
    eapply Forall_impl; [exact Hall|]. intros x ->. cbn. by apply bool_decide_eq_true.
Qed.

Lemma slashes_chars (value : string) :
  chars (slashes value)
  = (fun c => if bool_decide (c = "\"%char) then "/"%char else c) <$> chars value.
Proof. unfold slashes. apply chars_of_chars. Qed.

Lemma all_slashes_snoc (l : list ascii) :
  l ≠ [] → Forall (fun c => c = "/"%char) l → ∃ l', l = l' ++ ["/"%char].
Proof.
  intros Hne Hall. destruct l as [|c l] using rev_ind; [done|].
  apply Forall_app in Hall as [_ Hc]. apply Forall_singleton in Hc as ->. by exists l.
Qed.

Lemma all_slashes_replicate (l : list ascii) :
  Forall (fun c => c = "/"%char) l → l = replicate (length l) "/"%char.
Proof. induction 1 as [|c l Hc _ IH]; simpl; [done|]. by rewrite Hc, <- IH. Qed.

(** What is left when the trailing slashes are taken off a text. *)
Lemma strip_trailing (text : string) :
  ∃ k, chars text = chars (removeToEnd false trailingSlashes text) ++ replicate k "/"%char
       ∧ ∀ l, chars (removeToEnd false trailingSlashes text) ≠ l ++ ["/"%char].
Proof.
  unfold removeToEnd.
  destruct (search false trailingSlashes (chars text)) as [n|] eqn:Hsearch.
  - apply search_Some in Hsearch as (Hn & Hmatch & Hfirst).
    apply trailingSlashes_match in Hmatch as [Hne Hall].
    rewrite chars_of_chars. exists (length (drop n (chars text))). split.
    + rewrite <- (take_drop n (chars text)) at 1. f_equal.
      by apply all_slashes_replicate.
    + intros l Hl.
      assert (length l < n)%nat as Hlt.
      { apply (f_equal length) in Hl. rewrite length_take, length_app in Hl.
        simpl in Hl. lia. }
      specialize (Hfirst (length l) Hlt). apply not_true_iff_false in Hfirst.
      apply Hfirst, trailingSlashes_match.
      rewrite <- (take_drop n (chars text)), Hl, <- (assoc_L (++)), drop_app_length.
      split; [done|]. by constructor.
  - exists 0%nat. simpl. rewrite app_nil_r. split; [done|]. intros l Hl.
    pose proof (proj1 (search_None _ _ _) Hsearch (length l)) as Hno.
    apply not_true_iff_false in Hno. apply Hno, trailingSlashes_match.
    rewrite Hl, drop_app_length. split; [done|]. by repeat constructor.
Qed.

(** *** Which directories are scanned *)














(** *** One file, one result *)


Lemma tryLoad_resolved (H : Host) (fuel : nat) (entryName filePath toolName : string)
    (src : CustomToolSource) (h h' : Heap) (r : CustomToolLoadResult) :
  tryLoad H fuel entryName filePath toolName src h = (Resolved r, h') →
  status r = Loaded ∧ Loader.filePath r = filePath ∧ source r = src
  ∧ error r = None ∧ is_Some (tool r).
Proof.
  unfold tryLoad, bind, host, ret, reject, setName, Compiler.compileCustomTool,
    Compiler.createCustomToolModuleUrl, bind, host, ret.
  intros Hrun.
  repeat (case_match; simplify_eq/=); eauto 10.
Qed.

(** *** A failure that is not isolated *)

(** The scenario of the specification, run: a directory with one valid
    tool file and one file with a syntax error (and two entries that are no
    candidates) gives the valid tool, loaded, and one error for the other
    file. *)
Example one_valid_one_broken :
  (loadCustomTools Example.machine 1
     {| workspaceRoot := None; customDirectory := Some "/w" |} emptyHeap).1
  = Resolved
      [ {| name := "good"; filePath := "/w/.talkcody/tools/good-tool.ts";
           status := Loaded; source := Custom; error := None;
           tool := Some (VObject [("name", VString "good")]) |};
        {| name := "bad-tool"; filePath := "/w/.talkcody/tools/bad-tool.ts";
           status := Error; source := Custom; error := Some "Syntax Error";
           tool := None |} ].
Proof. vm_compute. reflexivity. Qed.

(** C4, the code at the failing input.  The directory [/v/.talkcody/tools]
    holds [first-tool.ts], whose module throws [Object.create(null)], and
    [second-tool.ts], a valid tool that loads when it is loaded alone.  The
    import of the first file rejects with the thrown object; in the inner
    [catch], [String(error)] throws a [TypeError], so the [catch] block
    rejects and the loop over the entries is left.  The outer [catch]
    records one error for the directory: the first file has no result of
    its own, and the second file, which never failed, has none either. *)
Theorem unprintable_throw_drops_siblings :
  let installed := (Compiler.registerCustomToolModuleResolver None emptyHeap).2 in
  let summary :=
    loadCustomTools Example.machine 1
      {| workspaceRoot := None; customDirectory := Some "/v" |} emptyHeap in
  readDir Example.machine "/v/.talkcody/tools"
  = Ok [ {| entry_name := "first-tool.ts"; isFile := true |};
         {| entry_name := "second-tool.ts"; isFile := true |} ]
  ∧ (tryLoad Example.machine 1 "first-tool.ts" "/v/.talkcody/tools/first-tool.ts"
       "first-tool" Custom installed).1
    = Rejected ThrownUnprintable
  ∧ (loadFile Example.machine 1 "first-tool.ts" "/v/.talkcody/tools/first-tool.ts"
       "first-tool" Custom installed).1
    = Rejected cannotConvert
  ∧ (loadFile Example.machine 1 "second-tool.ts" "/v/.talkcody/tools/second-tool.ts"
       "second-tool" Custom installed).1
    = Resolved {| name := "good"; filePath := "/v/.talkcody/tools/second-tool.ts";
                  status := Loaded; source := Custom; error := None;
                  tool := Some (VObject [("name", VString "good")]) |}
  ∧ summary.1
    = Resolved [ {| name := "/v/.talkcody/tools"; filePath := "/v/.talkcody/tools";
                    status := Error; source := Custom;
                    error := Some "Cannot convert object to primitive value";
                    tool := None |} ].
Proof. vm_compute. repeat split. Qed.

End LoaderProofs.

(** * Further properties *)

(** ** The permission store and the checks, together *)

Module PermissionExtras.
Import PermissionStore Permission StoreHistory PermissionProofs.

Lemma filter_nil_iff {A} (f : A → bool) (l : list A) :
  List.filter f l = [] ↔ ∀ x, x ∈ l → f x = false.
Proof.
  induction l as [|a l IH]; simpl.
  - split; [intros _ x Hx; by apply elem_of_nil in Hx | done].
  - destruct (f a) eqn:Ha.
    + split; [done|]. intros Hall. specialize (Hall a ltac:(left)). congruence.
    + rewrite IH. split.
      * intros Hall x [->|Hx]%elem_of_cons; auto.
      * intros Hall x Hx. apply Hall. by right.
Qed.

Lemma includes_true (perms : list CustomToolPermission) (p : CustomToolPermission) :
  includes perms p = true ↔ p ∈ perms.
Proof. unfold includes. apply bool_decide_eq_true. Qed.

Lemma check_with_grant (tool : string) (requested : list CustomToolPermission)
    (state : CustomToolPermissionState) (grant : CustomToolPermissionGrant) :
  getGrant tool state = Some grant →
  checkCustomToolPermissions tool requested state
  = {| allowed := bool_decide (List.filter (fun p => negb (includes (permissions grant) p))
                                           requested = []);
       missing := List.filter (fun p => negb (includes (permissions grant) p)) requested |}.
Proof.
  intros Hgrant. unfold checkCustomToolPermissions. rewrite Hgrant.
  destruct requested as [|p rest]; [done|]. cbn [length Nat.eqb].
  destruct (List.filter _ (p :: rest)) as [|q missing]; [done|]. done.
Qed.

(** X1: the answer of [checkCustomToolPermissions] is coherent, in every
    state: it allows exactly when nothing is missing; it allows exactly
    when the request is empty or the tool has a grant that holds every
    requested permission; what it reports missing is taken from the request,
    in the order of the request. *)
Theorem check_answer_coherent (tool : string) (requested : list CustomToolPermission)
    (state : CustomToolPermissionState) :
  let answer := checkCustomToolPermissions tool requested state in
  (allowed answer = true ↔ missing answer = [])
  ∧ (allowed answer = true
     ↔ requested = []
       ∨ ∃ grant, getGrant tool state = Some grant
                  ∧ ∀ p, p ∈ requested → p ∈ permissions grant)
  ∧ missing answer `sublist_of` requested.
Proof.
  cbn zeta. destruct requested as [|p rest].
  { cbn. split; [done|]. split; [|done]. split; [by left | done]. }
  destruct (getGrant tool state) as [grant|] eqn:Hgrant.
  - rewrite (check_with_grant _ _ _ _ Hgrant). cbn [allowed missing].
    rewrite bool_decide_eq_true. split; [done|]. split.
    + rewrite filter_nil_iff. split.
      * intros Hall. right. exists grant. split; [done|]. intros q Hq.
        apply includes_true. specialize (Hall q Hq).
        by apply negb_false_iff in Hall.
      * intros [?|(grant' & [= <-] & Hall)]; [done|]. intros q Hq.
        apply negb_false_iff, includes_true. by apply Hall.
    + induction (p :: rest) as [|q l IH]; simpl; [done|].
      destruct (negb _); [by apply sublist_skip | by apply sublist_cons].
  - rewrite (check_without_grant _ _ _ _ Hgrant). cbn [allowed missing].
    split; [done|]. split; [|done].
    split; [done|]. intros [?|(grant & ? & _)]; done.
Qed.

(** X2: right after [grantPermission tool perms], a request is allowed
    exactly when each of its permissions is in [perms], and what is missing
    is the request without the permissions of [perms]; right after
    [revokePermission tool] only the empty request is allowed. *)
Theorem check_after_grant_and_revoke (tool : string) (perms requested : list CustomToolPermission)
    (now : Z) (state : CustomToolPermissionState) :
  (allowed (checkCustomToolPermissions tool requested (grantPermission tool perms now state))
     = true
   ↔ ∀ p, p ∈ requested → p ∈ perms)
  ∧ missing (checkCustomToolPermissions tool requested (grantPermission tool perms now state))
    = List.filter (fun p => bool_decide (p ∉ perms)) requested
  ∧ (allowed (checkCustomToolPermissions tool requested (revokePermission tool state)) = true
     ↔ requested = []).
Proof.
  pose proof (getGrant_grantPermission tool perms now state) as Hgrant.
  rewrite (check_with_grant _ _ _ _ Hgrant). cbn [allowed missing permissions].
  split; [|split].
  - rewrite bool_decide_eq_true, filter_nil_iff. split.
    + intros Hall p Hp. apply includes_true. specialize (Hall p Hp).
      by apply negb_false_iff in Hall.
    + intros Hall p Hp. apply negb_false_iff, includes_true. by apply Hall.
  - induction requested as [|p rest IH]; simpl; [done|].
    unfold includes at 1. rewrite IH.
    destruct (decide (p ∈ perms)) as [Hin|Hout].
    + by rewrite (bool_decide_eq_true_2 _ Hin), bool_decide_eq_false_2 by auto.
    + by rewrite (bool_decide_eq_false_2 _ Hout), (bool_decide_eq_true_2 _ Hout).
  - destruct requested as [|p rest]; [done|].
    rewrite check_without_grant by apply getGrant_revokePermission. done.
Qed.

(** X3: revoking undoes a grant and nothing else: after a grant, revoking
    leaves the store as revoking alone would; a revoked tool has no grant;
    revoking twice is revoking once; and revoking a tool that has no grant
    leaves the store as it is. *)
Theorem revoke_undoes_grant (tool : string) (perms : list CustomToolPermission) (now : Z)
    (state : CustomToolPermissionState) :
  revokePermission tool (grantPermission tool perms now state) = revokePermission tool state
  ∧ getGrant tool (revokePermission tool state) = None
  ∧ revokePermission tool (revokePermission tool state) = revokePermission tool state
  ∧ (getGrant tool state = None → revokePermission tool state = state).
Proof.
  unfold revokePermission, grantPermission, getGrant; simpl.
  split; [by rewrite delete_insert_eq|]. split; [apply lookup_delete_eq|].
  split; [by rewrite delete_delete_eq|].
  intros Hnone. destruct state as [grants]. simpl in *. f_equal.
  by apply delete_id.
Qed.

Lemma revoke_undoes_grant_witness :
  revokePermission "t" initial = initial.
Proof.
  apply (proj2 (proj2 (proj2 (revoke_undoes_grant "t" [] 0 initial)))). reflexivity.
Defined.

(** X4: a grant or a revocation for one tool changes no other tool's
    grant and no other tool's check. *)
Theorem other_tools_unaffected (tool other : string)
    (perms requested : list CustomToolPermission) (now : Z)
    (state : CustomToolPermissionState) :
  other ≠ tool →
  getGrant other (grantPermission tool perms now state) = getGrant other state
  ∧ getGrant other (revokePermission tool state) = getGrant other state
  ∧ checkCustomToolPermissions other requested (grantPermission tool perms now state)
    = checkCustomToolPermissions other requested state
  ∧ checkCustomToolPermissions other requested (revokePermission tool state)
    = checkCustomToolPermissions other requested state.
Proof.
  intros Hne.
  assert (getGrant other (revokePermission tool state) = getGrant other state) as Hrevoke.
  { unfold getGrant, revokePermission; simpl. by rewrite lookup_delete_ne. }
  pose proof (getGrant_grantPermission_ne tool other perms now state Hne) as Hgrant.
  split; [done|]. split; [done|].
  unfold checkCustomToolPermissions. by rewrite Hgrant, Hrevoke.
Qed.

Lemma other_tools_unaffected_witness :
  checkCustomToolPermissions "b" [Net] (revokePermission "a" (grantPermission "b" [Net] 1 initial))
  = checkCustomToolPermissions "b" [Net] (grantPermission "b" [Net] 1 initial).
Proof.
  apply (other_tools_unaffected "a" "b" [] [Net] 0 (grantPermission "b" [Net] 1 initial)).
  discriminate.
Defined.

(** X5: in every state the store can reach from its initial state by
    grants and revocations, the grant found under a tool name carries that
    name. *)
Theorem stored_grant_names_its_tool (calls : list StoreCall) (tool : string)
    (grant : CustomToolPermissionGrant) :
  getGrant tool (replay calls) = Some grant → toolName grant = tool.
Proof.
  unfold replay.
  assert (∀ state, (∀ t g, getGrant t state = Some g → toolName g = t) →
            ∀ t g, getGrant t (foldl call state calls) = Some g → toolName g = t) as Hinv.
  { induction calls as [|c calls IH]; intros state Hstate; [done|].
    simpl. apply IH. intros t g. destruct c as [tool' perms now|tool']; simpl.
    - destruct (decide (t = tool')) as [->|Hne].
      + rewrite getGrant_grantPermission. by intros [= <-].
      + rewrite getGrant_grantPermission_ne by done. apply Hstate.
    - unfold getGrant, revokePermission; simpl.
      intros Hg. apply lookup_delete_Some in Hg as [_ Hg]. by apply (Hstate t). }
  apply Hinv. intros t g. unfold getGrant, initial; simpl. by rewrite lookup_empty.
Qed.

Lemma stored_grant_names_its_tool_witness :
  toolName {| toolName := "b"; permissions := [Fs]; grantedAt := 2 |} = "b".
Proof.
  apply (stored_grant_names_its_tool
           [CallGrant "a" [Net] 1; CallGrant "b" [Fs] 2; CallRevoke "a"] "b").
  vm_compute. reflexivity.
Defined.

(** A request within what was just granted is allowed. *)
Lemma check_within_grant (tool : string) (perms requested : list CustomToolPermission)
    (now : Z) (state : CustomToolPermissionState) :
  (∀ p, p ∈ requested → p ∈ perms) →
  checkCustomToolPermissions tool requested (grantPermission tool perms now state)
  = {| allowed := true; missing := [] |}.
Proof.
  intros Hall.
  rewrite (check_with_grant _ _ _ _ (getGrant_grantPermission tool perms now state)).
  cbn [permissions].
  assert (List.filter (fun p => negb (includes perms p)) requested = []) as ->; [|done].
  apply filter_nil_iff. intros p Hp. apply negb_false_iff, includes_true. by apply Hall.
Qed.

End PermissionExtras.

(** ** The adapter *)

Module AdapterExtras.
Import PermissionStore Permission Registry Adapters.

(** X6: however a tool is declared, the store its [execute] runs on
    passes [checkCustomToolPermissions] for the permissions it declares: a
    tool run through the adapter is never short of a permission of its
    own. *)
Theorem adapted_tool_passes_its_check (definition : CustomToolDefinition) (now : Z)
    (params context : Value) (state : CustomToolPermissionState) :
  ∃ seen,
    tool_execute (adaptCustomTool definition) now params context state
    = execute definition params context seen
    ∧ checkCustomToolPermissions (name definition)
        (default [] (Registry.permissions definition)) seen
      = {| allowed := true; missing := [] |}.
Proof.
  cbn [tool_execute adaptCustomTool].
  destruct (default [] (Registry.permissions definition)) as [|p rest] eqn:Hrequested.
  - exists state. done.
  - exists (grantPermission (name definition) (p :: rest) now state). split; [done|].
    by apply PermissionExtras.check_within_grant.
Qed.

Lemma foldl_assign_lookup (definitions : list CustomToolDefinition)
    (tools : gmap string ToolWithUI) (n : string) :
  foldl assign tools definitions !! n
  = if String.eqb n "__proto__" then tools !! n
    else match last (List.filter (fun d => String.eqb (name d) n) definitions) with
         | Some d => Some (adaptCustomTool d)
         | None => tools !! n
         end.
Proof.
  induction definitions as [|d definitions IH] using rev_ind.
  - simpl. by destruct (String.eqb n "__proto__").
  - rewrite foldl_snoc, List.filter_app. cbn [List.filter]. unfold assign at 1.
    destruct (String.eqb (name d) "__proto__") eqn:Hproto.
    + rewrite IH. destruct (String.eqb n "__proto__") eqn:Hn; [done|].
      assert (String.eqb (name d) n = false) as ->.
      { apply String.eqb_eq in Hproto. apply String.eqb_neq. apply String.eqb_neq in Hn.
        congruence. }
      by rewrite app_nil_r.
    + destruct (String.eqb (name d) n) eqn:Hd.
      * apply String.eqb_eq in Hd as <-. rewrite Hproto, last_snoc.
        apply lookup_insert_eq.
      * rewrite app_nil_r, lookup_insert_ne by (by apply String.eqb_neq). apply IH.
Qed.

(** X7: in the map [adaptCustomTools] builds, a name stands for the
    adaptation of the last definition of the list that bears it: a later
    definition silently replaces an earlier one with the same name, and a
    name no definition bears is absent.  (A definition named [__proto__]
    adds no entry.) *)
Theorem adaptCustomTools_last_wins (definitions : list CustomToolDefinition) (n : string) :
  adaptCustomTools definitions !! n
  = if String.eqb n "__proto__" then None
    else adaptCustomTool <$> last (List.filter (fun d => String.eqb (name d) n) definitions).
Proof.
  unfold adaptCustomTools. rewrite foldl_assign_lookup, lookup_empty.
  destruct (String.eqb n "__proto__"); [done|].
  by destruct (last _).
Qed.

(** X8: what the fallback rendering shows.  The error prop is absent or
    a truthy value, never an empty text; it is absent exactly when the
    result is not an object with [success === false] or a truthy [error];
    a view whose success prop is [false] always has an error and no
    message; and a view without an error is a success with a message, the
    result itself when that is a string. *)
Theorem fallbackResult_views (result : Value) :
  let props := fallbackResult result in
  let failed :=
    truthy result && typeof_object result
    && (match get_field "success" result with VBool false => true | _ => false end
        || truthy (get_field "error" result)) in
  (error props = VUndefined ∨ truthy (error props) = true)
  ∧ (error props = VUndefined ↔ failed = false)
  ∧ (success props = VBool false → truthy (error props) = true ∧ message props = VUndefined)
  ∧ (error props = VUndefined →
     success props = VBool true
     ∧ message props = match result with
                       | VString s => VString s
                       | _ => VString "Custom tool executed"
                       end).
Proof.
  cbn zeta. unfold fallbackResult.
  destruct (truthy result && typeof_object result) eqn:Hobject; cbn [andb].
  - destruct (get_field "success" result) as [| |[|]| | | | | |] eqn:Hsuccess;
      destruct (truthy (get_field "error" result)) eqn:Herror;
      cbn -[truthy]; rewrite ?Herror; cbn;
      repeat split; try done; try (by right); try (by left);
      try (intros Heq; rewrite Heq in Herror; done);
      try (destruct result; done);
      try match goal with
          | Habsent : _ = VUndefined |- _ =>
              first [discriminate Habsent | rewrite Habsent in Herror; discriminate Herror]
          end.
  - assert (match result with VString s => VString s | _ => VString "Custom tool executed" end
            ≠ VUndefined) as Hmessage by (by destruct result).
    cbn. repeat split; try done; try (by left); by destruct result.
Qed.

Lemma fallbackResult_views_witness :
  success (fallbackResult (VString "done")) = VBool true
  ∧ message (fallbackResult (VString "done")) = VString "done".
Proof.
  apply (proj2 (proj2 (proj2 (fallbackResult_views (VString "done"))))). reflexivity.
Defined.

End AdapterExtras.

(** ** The resolver, further *)

Module ResolverExtras.
Import JsString ImportMap.

Lemma resolveWith_stable (H : Host) (loadFile loadFile' : string → Async Value)
    (alias : string) (baseDir : option string) (h h' : Heap) (v : Value) :
  resolveWith H loadFile alias baseDir h = (Resolved v, h') →
  resolveWith H loadFile' alias baseDir h' = (Resolved v, h').
Proof.
  intros Hfirst.
  assert (moduleCache h' !! alias = Some v
          ∨ (h' = h ∧ moduleCache h !! alias = None)) as [Hhit|[-> Hmiss]].
  { revert Hfirst.
    unfold resolveWith, bind, get_heap, cacheSet, modify_heap, ret, reject, host,
      loadInternalModule, resolveRelativePath, bind, host.
    destruct (moduleCache h !! alias) as [cached|] eqn:Hcache.
    { intros [= <- <-]. by left. }
    intros Hrun.
    repeat (case_match; simplify_eq/=);
      first [ left; by rewrite lookup_insert_eq | right; done ]. }
  { by apply ImportMapProofs.resolveWith_cache_hit. }
  revert Hfirst.
  unfold resolveWith, bind, get_heap, cacheSet, modify_heap, ret, reject, host,
    loadInternalModule, resolveRelativePath, bind, host.
  rewrite Hmiss. intros Hrun.
  repeat (case_match; simplify_eq/=); try done;
    try (rewrite lookup_insert_eq in Hmiss; discriminate Hmiss);
    match goal with
    | Hset : set_moduleCache _ ?h0 = ?h0 |- _ =>
        apply (f_equal (fun x => moduleCache x !! alias)) in Hset;
        simpl in Hset; rewrite lookup_insert_eq, Hmiss in Hset; discriminate Hset
    | Hset : ?h0 = set_moduleCache _ ?h0 |- _ =>
        apply (f_equal (fun x => moduleCache x !! alias)) in Hset;
        simpl in Hset; rewrite lookup_insert_eq, Hmiss in Hset; discriminate Hset
    end.
Qed.

(** X9: resolving is stable.  When [resolveCustomToolModule] has resolved
    a specifier to a value, resolving the same specifier again from the
    heap it left gives the same value and leaves the heap alone, without
    loading any file: however deep relative imports may nest the second
    time, the answer is the first one. *)
Theorem resolve_twice_same (H : Host) (fuel fuel' : nat) (alias : string)
    (baseDir : option string) (h h' : Heap) (v : Value) :
  resolveCustomToolModule H fuel alias baseDir h = (Resolved v, h') →
  resolveCustomToolModule H fuel' alias baseDir h' = (Resolved v, h').
Proof. apply resolveWith_stable. Qed.

Lemma resolve_twice_same_witness :
  resolveCustomToolModule Example.machine 0 "./helper" (Some "/a") Example.afterFirstImport
  = (Resolved (VObject [("name", VString "helper-a")]), Example.afterFirstImport).
Proof.
  apply (resolve_twice_same Example.machine 1 0 "./helper" (Some "/a") emptyHeap).
  vm_compute. reflexivity.
Defined.

(** *** What resolving leaves alone *)

Lemma heapExtends_refl (h : Heap) : heapExtends h h.
Proof. by repeat split. Qed.

Lemma heapExtends_trans (h1 h2 h3 : Heap) :
  heapExtends h1 h2 → heapExtends h2 h3 → heapExtends h1 h3.
Proof.
  intros (Hd & Hr & Hp & Hc & Hw & Hg) (Hd' & Hr' & Hp' & Hc' & Hw' & Hg').
  split; [by etrans|]. split_and!; congruence.
Qed.

Lemma extending_ret {A} (a : A) : extending (ret a).
Proof. intros h. apply heapExtends_refl. Qed.

Lemma extending_reject {A} (e : Thrown) : extending (@reject A e).
Proof. intros h. apply heapExtends_refl. Qed.

Lemma extending_host {A} (r : result A) : extending (host r).
Proof. intros h. apply heapExtends_refl. Qed.

Lemma extending_bind {A B} (m : Async A) (k : A → Async B) :
  extending m → (∀ a, extending (k a)) → extending (bind m k).
Proof.
  intros Hm Hk h. unfold bind. specialize (Hm h).
  destruct (m h) as [[a|e|] h1]; simpl in *; [|done..].
  eapply heapExtends_trans; [exact Hm | apply Hk].
Qed.

Lemma extending_cacheSet (key : string) (value : Value) : extending (cacheSet key value).
Proof.
  intros h. unfold cacheSet, modify_heap, heapExtends; simpl.
  split; [|done]. rewrite dom_insert_L. set_solver.
Qed.

Lemma extending_require (resolver : string → option string → Async Value)
    (baseDir : option string) (specifier : string) (cache : gmap string Value) :
  (∀ s b, extending (resolver s b)) →
  extending (Compiler.require resolver baseDir specifier cache).
Proof.
  intros Hresolver. unfold Compiler.require.
  destruct (cache !! specifier); [apply extending_ret|].
  apply extending_bind.
  - intros h. unfold Compiler.callWindowResolver, bind, get_heap.
    destruct (windowResolver h); [apply Hresolver|].
    destruct (hasWindow h); apply heapExtends_refl.
  - intros resolved. destruct (negb (truthy resolved));
      [apply extending_reject | apply extending_ret].
Qed.

Lemma extending_run (resolver : string → option string → Async Value)
    (baseDir : option string) (c : Code) :
  (∀ s b, extending (resolver s b)) →
  quiet c →
  ∀ cache, extending (Compiler.run resolver baseDir c cache).
Proof.
  intros Hresolver Hquiet.
  induction Hquiet as [exports|e|specifier k _ IH]; intros cache h; simpl.
  - apply heapExtends_refl.
  - apply heapExtends_refl.
  - pose proof (extending_require resolver baseDir specifier cache Hresolver h) as Hreq.
    destruct (Compiler.require resolver baseDir specifier cache h) as [[[v cache']|e|] h1];
      simpl in *; [| |done];
      (eapply heapExtends_trans; [exact Hreq | apply IH]).
Qed.

Lemma extending_resolveWith (H : Host) (loadFile : string → Async Value)
    (alias : string) (baseDir : option string) :
  (∀ filePath, extending (loadFile filePath)) →
  extending (resolveWith H loadFile alias baseDir).
Proof.
  intros Hload h. unfold resolveWith. unfold bind at 1, get_heap.
  destruct (moduleCache h !! alias); [apply heapExtends_refl|].
  destruct (startsWith alias "./" || startsWith alias "../").
  - destruct (noBaseDir baseDir); [apply heapExtends_refl|].
    apply extending_bind.
    + apply extending_bind; [apply extending_host | intros; apply extending_host].
    + intros resolvedPath h1. unfold bind at 1.
      destruct (moduleCache h1 !! ("file:" +:+ resolvedPath)); [apply heapExtends_refl|].
      apply extending_bind; [apply Hload|]. intros module.
      apply extending_bind; [apply extending_cacheSet|]. intros _.
      apply extending_bind; [apply extending_cacheSet|]. intros _. apply extending_ret.
  - destruct (inRegistry alias (moduleRegistry h)).
    { apply extending_bind; [apply extending_cacheSet | intros; apply extending_ret]. }
    destruct (bool_decide (alias ∈ builtinLoaders)).
    { apply extending_bind; [apply extending_host|]. intros loaded.
      apply extending_bind; [apply extending_cacheSet | intros; apply extending_ret]. }
    apply extending_bind; [apply extending_host|]. intros internalModule.
    destruct (truthy internalModule); [|apply extending_ret].
    apply extending_bind; [apply extending_cacheSet | intros; apply extending_ret].
Qed.

Lemma extending_loadAndCompileFile (H : Host) (fuel : nat) (filePath : string) :
  (∀ text, quiet (evaluate H text)) →
  extending (loadAndCompileFile H fuel filePath).
Proof.
  intros Hquiet. revert filePath. induction fuel as [|fuel IH]; intros filePath.
  - intros h. apply heapExtends_refl.
  - cbn [loadAndCompileFile].
    apply extending_bind; [apply extending_host|]. intros found.
    destruct (negb found); [apply extending_reject|].
    apply extending_bind; [apply extending_host|]. intros filename.
    apply extending_bind; [apply extending_host|]. intros fileDir.
    apply extending_bind; [apply extending_host|]. intros sourceCode.
    apply extending_bind.
    { apply extending_bind; [apply extending_host | intros; apply extending_ret]. }
    intros compiled.
    apply extending_bind; [apply extending_ret|]. intros moduleUrl.
    apply extending_bind; [|intros; apply extending_ret].
    apply extending_bind; [|intros; apply extending_ret].
    apply extending_run; [|apply Hquiet]. intros s b. by apply extending_resolveWith.
Qed.

Lemma resolveCustomToolModule_extends (H : Host) (fuel : nat) (alias : string)
    (baseDir : option string) (h : Heap) :
  (∀ text, quiet (evaluate H text)) →
  heapExtends h (resolveCustomToolModule H fuel alias baseDir h).2.
Proof.
  intros Hquiet. apply (extending_resolveWith H). intros filePath.
  by apply extending_loadAndCompileFile.
Qed.

(** A specifier that is not relative is resolved without loading a file. *)
Lemma resolveWith_bare (H : Host) (loadFile loadFile' : string → Async Value)
    (alias : string) (baseDir : option string) (h : Heap) :
  startsWith alias "./" || startsWith alias "../" = false →
  resolveWith H loadFile alias baseDir h = resolveWith H loadFile' alias baseDir h.
Proof. intros Hbare. unfold resolveWith, bind at 1 3, get_heap. by rewrite Hbare. Qed.

(** The module texts of the example host are quiet. *)
Lemma machine_quiet (text : string) : quiet (evaluate Example.machine text).
Proof.
  cbn [evaluate Example.machine]. unfold Example.behaviour.
  repeat (destruct (String.eqb text _); [constructor|]). constructor.
Qed.

(** X10: the resolver's own code only ever adds to the resolution cache.
    When the specifier is not relative, so that no file is loaded, or when
    the modules the host runs are quiet (they deal with the page through
    [__require] only), [resolveCustomToolModule] keeps every key of the
    cache and changes neither the registry, nor the playground resolvers
    and their cache, nor the window and its resolver, whatever the base
    directory and the outcome. *)
Theorem resolve_only_extends_cache (H : Host) (fuel : nat) (alias : string)
    (baseDir : option string) (h : Heap) :
  (∀ text, quiet (evaluate H text))
  ∨ startsWith alias "./" || startsWith alias "../" = false →
  let h' := (resolveCustomToolModule H fuel alias baseDir h).2 in
  dom (moduleCache h) ⊆ dom (moduleCache h')
  ∧ moduleRegistry h' = moduleRegistry h
  ∧ playgroundResolvers h' = playgroundResolvers h
  ∧ playgroundModuleCache h' = playgroundModuleCache h
  ∧ windowResolver h' = windowResolver h
  ∧ hasWindow h' = hasWindow h.
Proof.
  intros [Hquiet|Hbare]; cbn zeta.
  - by apply resolveCustomToolModule_extends.
  - unfold resolveCustomToolModule.
    rewrite (resolveWith_bare H _ (fun _ => ret VUndefined) _ _ _ Hbare).
    apply (extending_resolveWith H). intros filePath. apply extending_ret.
Qed.

Lemma resolve_only_extends_cache_witness :
  let h := (Compiler.registerCustomToolModuleResolver None emptyHeap).2 in
  let h' := (resolveCustomToolModule Example.machine 1 "./helper" (Some "/a") h).2 in
  dom (moduleCache h) ⊆ dom (moduleCache h')
  ∧ moduleRegistry h' = moduleRegistry h
  ∧ playgroundResolvers h' = playgroundResolvers h
  ∧ playgroundModuleCache h' = playgroundModuleCache h
  ∧ windowResolver h' = windowResolver h
  ∧ hasWindow h' = hasWindow h.
Proof.
  intros h.
  apply (resolve_only_extends_cache Example.machine 1 "./helper" (Some "/a") h).
  left. apply machine_quiet.
Defined.

(** A module that is not quiet can change what the resolver leaves alone:
    the relative import of a file that deletes the global resolver resolves
    and leaves the resolver removed. *)
Example noisy_module_removes_resolver :
  let h := (Compiler.registerCustomToolModuleResolver None emptyHeap).2 in
  let second :=
    resolveCustomToolModule (Example.running Example.removesResolver) 1
      "./helper" (Some "/a") h in
  windowResolver h = Some None
  ∧ second.1 = Resolved (VObject [])
  ∧ windowResolver second.2 = None.
Proof. vm_compute. repeat split. Qed.

(** *** Relative imports without a base directory *)

(** X11: a relative specifier needs a base directory.  When neither the
    caller's nor the installed default gives one (it is absent or empty) and
    the literal specifier is not cached, [resolveCustomToolModule] rejects
    with [Relative import requires base directory] and changes nothing; so
    does a playground resolver, which never passes a base directory. *)
Theorem relative_import_needs_base (H : Host) (fuel : nat) (alias : string)
    (baseDir : option string) (options : PlaygroundOptions) (h : Heap) :
  startsWith alias "./" || startsWith alias "../" = true →
  moduleCache h !! alias = None →
  noBaseDir baseDir = true →
  resolveCustomToolModule H fuel alias baseDir h = (Rejected (relativeNeedsBase alias), h)
  ∧ (playgroundModuleCache h !! playgroundKey (playgroundId options) alias = None →
     playgroundResolve H fuel options alias h = (Rejected (relativeNeedsBase alias), h)).
Proof.
  intros Hrelative Hmiss Hbase.
  assert (∀ base, noBaseDir base = true →
            resolveCustomToolModule H fuel alias base h = (Rejected (relativeNeedsBase alias), h))
    as Hreject.
  { intros base Hnone. unfold resolveCustomToolModule, resolveWith, bind, get_heap.
    by rewrite Hmiss, Hrelative, Hnone. }
  split; [by apply Hreject|]. intros Hpg.
  unfold playgroundResolve, bind at 1, get_heap. rewrite Hpg.
  unfold bind at 1, resolveModuleWithPermissions.
  assert (String.eqb alias "@/lib/tauri-fetch" = false) as ->.
  { apply String.eqb_neq. intros ->. vm_compute in Hrelative. discriminate. }
  by rewrite Hreject.
Qed.

Lemma relative_import_needs_base_witness :
  resolveCustomToolModule Example.machine 1 "./helper" (Some "") emptyHeap
  = (Rejected (relativeNeedsBase "./helper"), emptyHeap)
  ∧ playgroundResolve Example.machine 1 (Example.optionsFor "a") "./helper" emptyHeap
    = (Rejected (relativeNeedsBase "./helper"), emptyHeap).
Proof.
  destruct (relative_import_needs_base Example.machine 1 "./helper" (Some "")
              (Example.optionsFor "a") emptyHeap) as [Hresolve Hplayground];
    [reflexivity..|].
  split; [exact Hresolve|]. apply Hplayground. reflexivity.
Defined.

(** *** Internal modules *)

Lemma firstLoader_first (H : Host) (before after : list string) (candidate : string)
    (loaded : result Value) :
  (∀ c, c ∈ before → internalModuleLoaders H !! c = None) →
  internalModuleLoaders H !! candidate = Some loaded →
  firstLoader H (before ++ candidate :: after) = loaded.
Proof.
  intros Hbefore Hcandidate. induction before as [|b before IH]; simpl.
  - by rewrite Hcandidate.
  - rewrite (Hbefore b) by left. apply IH. intros c Hc. apply Hbefore. by right.
Qed.

(** X12: internal modules are reached through [@/] only, and by a fixed
    order of candidates.  A specifier that does not begin with [@/] has no
    candidate; one that does has nine, all under [/src/], the bare path
    first, then the four extensions, then the four index files; and the
    module loaded is that of the first candidate the table knows, whatever
    candidates after it exist too. *)
Theorem internal_module_first_candidate (H : Host) (specifier : string) :
  (startsWith specifier "@/" = false → buildInternalCandidates specifier = [])
  ∧ (∀ rest, specifier = "@/" +:+ rest →
       buildInternalCandidates specifier
       = (fun suffix => ("/src/" +:+ rest) +:+ suffix) <$>
         [""; ".ts"; ".tsx"; ".js"; ".jsx";
          "/index.ts"; "/index.tsx"; "/index.js"; "/index.jsx"])
  ∧ (∀ before candidate after loaded h,
       buildInternalCandidates specifier = before ++ candidate :: after →
       (∀ c, c ∈ before → internalModuleLoaders H !! c = None) →
       internalModuleLoaders H !! candidate = Some loaded →
       loadInternalModule H specifier h = (of_result loaded, h)).
Proof.
  split; [|split].
  - intros Hstart. unfold buildInternalCandidates. by rewrite Hstart.
  - intros rest ->. unfold buildInternalCandidates.
    assert (startsWith ("@/" +:+ rest) "@/" = true) as -> by apply ImportMapProofs.startsWith_append.
    cbn [negb]. rewrite ImportMapProofs.chars_append.
    cbn [chars String.list_ascii_of_string app drop].
    rewrite drop_0.
    assert (of_chars (chars rest) = rest) as ->
      by apply String.string_of_list_ascii_of_string.
    cbn [fmap list_fmap].
    assert (∀ s : string, s +:+ "" = s) as Hempty.
    { intros s. induction s as [|c s IH]; [done|].
      change (String c (s +:+ "") = String c s). by rewrite IH. }
    by rewrite Hempty.
  - intros before candidate after loaded h Hcandidates Hbefore Hcandidate.
    unfold loadInternalModule, host. rewrite Hcandidates.
    by rewrite (firstLoader_first H before after candidate loaded).
Qed.

Lemma internal_module_first_candidate_witness :
  loadInternalModule Example.machine "@/lib/utils" emptyHeap
  = (Resolved (VModule "@/lib/utils"), emptyHeap).
Proof.
  apply (proj2 (proj2 (internal_module_first_candidate Example.machine "@/lib/utils"))
           ["/src/lib/utils"] "/src/lib/utils.ts"
           ["/src/lib/utils.tsx"; "/src/lib/utils.js"; "/src/lib/utils.jsx";
            "/src/lib/utils/index.ts"; "/src/lib/utils/index.tsx";
            "/src/lib/utils/index.js"; "/src/lib/utils/index.jsx"]
           (Ok (VModule "@/lib/utils")) emptyHeap).
  - vm_compute. reflexivity.
  - intros c Hc. apply list_elem_of_singleton in Hc as ->. vm_compute. reflexivity.
  - vm_compute. reflexivity.
Defined.

(** *** Playground resolvers *)

(** X13: the network helper is refused at once.  A playground resolver
    whose permissions lack [net] rejects [@/lib/tauri-fetch] with
    [Permission denied], unless its cache already holds an entry for it;
    the helper is not imported, nothing is cached and the heap is
    unchanged, so asking again is refused again. *)
Theorem playground_denies_fetch (H : Host) (fuel : nat) (options : PlaygroundOptions)
    (h : Heap) :
  "net" ∉ pg_permissions options →
  playgroundModuleCache h
    !! playgroundKey (playgroundId options) "@/lib/tauri-fetch" = None →
  playgroundResolve H fuel options "@/lib/tauri-fetch" h
  = (Rejected (permissionDenied "@/lib/tauri-fetch"), h).
Proof.
  intros Hnet Hmiss.
  unfold playgroundResolve, bind at 1, get_heap. rewrite Hmiss.
  unfold bind at 1, resolveModuleWithPermissions. cbn [String.eqb Ascii.eqb Bool.eqb].
  by rewrite (bool_decide_eq_false_2 _ Hnet).
Qed.

Lemma playground_denies_fetch_witness :
  playgroundResolve Example.machine 0 (Example.optionsFor "a") "@/lib/tauri-fetch"
    Example.playgrounds
  = (Rejected (permissionDenied "@/lib/tauri-fetch"), Example.playgrounds).
Proof.
  apply playground_denies_fetch.
  - intros Hin. by apply elem_of_nil in Hin.
  - vm_compute. reflexivity.
Defined.

(** X14: the playground cache answers before permissions are looked at.
    Once a resolver of a playground has resolved a specifier to a value
    other than [undefined], every resolver with the same playground id gets
    that value for that specifier, whatever its own permissions, mock flag
    and timeout are, and without touching the heap. *)
Theorem playground_cache_precedes_permissions (H : Host) (fuel fuel' : nat)
    (options options' : PlaygroundOptions) (specifier : string) (h h' : Heap) (v : Value) :
  playgroundResolve H fuel options specifier h = (Resolved v, h') →
  v ≠ VUndefined →
  playgroundId options' = playgroundId options →
  playgroundResolve H fuel' options' specifier h' = (Resolved v, h').
Proof.
  intros Hfirst Hdefined Hid.
  assert (playgroundModuleCache h' !! playgroundKey (playgroundId options) specifier = Some v)
    as Hcached.
  { revert Hfirst. unfold playgroundResolve, bind at 1, get_heap.
    destruct (playgroundModuleCache h !! playgroundKey (playgroundId options) specifier)
      as [cached|] eqn:Hcache.
    { intros [= <- <-]. done. }
    unfold bind at 1.
    destruct (resolveModuleWithPermissions H fuel specifier (pg_permissions options)
                (mockFetch options) (timeout options) h) as [[module|e|] h1]; [|done..].
    unfold bind, modify_heap, ret.
    destruct module; intros [= <- <-]; try done; simpl; apply lookup_insert_eq. }
  unfold playgroundResolve, bind at 1, get_heap. by rewrite Hid, Hcached.
Qed.

Lemma playground_cache_precedes_permissions_witness :
  let trusted := {| pg_permissions := ["net"]; mockFetch := true; timeout := 5;
                    playgroundId := "a" |} in
  let first := playgroundResolve Example.machine 0 trusted "@/lib/tauri-fetch" emptyHeap in
  playgroundResolve Example.machine 0 (Example.optionsFor "a") "@/lib/tauri-fetch" first.2
  = (Resolved (VObject [("simpleFetch", VFunction "mock fetch")]), first.2).
Proof.
  intros trusted first.
  apply (playground_cache_precedes_permissions Example.machine 0 0 trusted
           (Example.optionsFor "a") "@/lib/tauri-fetch" emptyHeap).
  - vm_compute. reflexivity.
  - discriminate.
  - reflexivity.
Defined.

(** *** The size of the playground cache *)

(** X15: [getPlaygroundCacheSize] after the two ways of clearing.  For
    an id that is not the empty string, the count for the id is [0] right
    after [clearPlaygroundCache id]; the count for an id never exceeds the
    total; and the total is [0] right after
    [unregisterPlaygroundResolver], whichever resolver was unregistered. *)
Theorem playground_cache_size_after_clearing (id other : string) (h : Heap) :
  (id ≠ "" → getPlaygroundCacheSize (Some id) (clearPlaygroundCache id h).2 = 0%nat)
  ∧ (getPlaygroundCacheSize (Some id) h ≤ getPlaygroundCacheSize None h)%nat
  ∧ getPlaygroundCacheSize None (unregisterPlaygroundResolver other h).2 = 0%nat
  ∧ getPlaygroundCacheSize (Some id) (unregisterPlaygroundResolver other h).2 = 0%nat.
Proof.
  split; [|split; [|split]].
  - intros Hid. unfold getPlaygroundCacheSize.
    rewrite (proj2 (String.eqb_neq _ _) Hid).
    assert (List.filter (fun key => startsWith key (id +:+ ":"))
              (map_to_list (playgroundModuleCache (clearPlaygroundCache id h).2)).*1 = [])
      as ->; [|done].
    apply PermissionExtras.filter_nil_iff. intros key Hkey.
    apply list_elem_of_fmap in Hkey as ([key' v] & -> & Hkey).
    apply elem_of_map_to_list in Hkey. simpl.
    rewrite ImportMapProofs.clearPlaygroundCache_lookup in Hkey.
    by destruct (startsWith key' (id +:+ ":")).
  - unfold getPlaygroundCacheSize. destruct (String.eqb id ""); [done|].
    rewrite <- length_map_to_list, <- (length_fmap fst (map_to_list _)).
    induction ((map_to_list (playgroundModuleCache h)).*1) as [|key keys IH]; simpl; [done|].
    destruct (startsWith key (id +:+ ":")); simpl; lia.
  - cbn. apply map_size_empty.
  - unfold getPlaygroundCacheSize. cbn [unregisterPlaygroundResolver].
    destruct (String.eqb id ""); cbn; [apply map_size_empty|].
    by rewrite map_to_list_empty.
Qed.

Lemma playground_cache_size_after_clearing_witness :
  getPlaygroundCacheSize (Some "a") (clearPlaygroundCache "a" Example.playgrounds).2 = 0%nat.
Proof.
  apply (proj1 (playground_cache_size_after_clearing "a" "a" Example.playgrounds)).
  discriminate.
Defined.

End ResolverExtras.

(** ** The module wrapper, further *)

Module WrapperExtras.
Import JsString Compiler.

Lemma require_result (resolver : string → option string → Async Value)
    (baseDir : option string) (specifier : string)
    (cache cache' : gmap string Value) (h h' : Heap) (v : Value) :
  require resolver baseDir specifier cache h = (Resolved (v, cache'), h') →
  cache' !! specifier = Some v ∧ cache ⊆ cache'.
Proof.
  unfold require.
  destruct (cache !! specifier) as [cached|] eqn:Hcache.
  { intros [= <- <- <-]. done. }
  unfold bind.
  destruct (callWindowResolver resolver specifier baseDir h) as [[resolved|e|] h1];
    [|done..].
  destruct (negb (truthy resolved)); [done|]. intros [= <- <- <-].
  split; [apply lookup_insert_eq | by apply insert_subseteq].
Qed.

(** X16: the wrapper's [__require] remembers.  After a call has given a
    value for a specifier, the module's cache holds it and has lost
    nothing, and every later call for that specifier gives the same value
    from the cache: it consults neither the window resolver nor the heap.
    A call that rejects leaves the module's cache to the caller as it was. *)
Theorem require_remembers (resolver resolver' : string → option string → Async Value)
    (baseDir baseDir' : option string) (specifier : string)
    (cache cache' : gmap string Value) (h h' h'' : Heap) (v : Value) :
  require resolver baseDir specifier cache h = (Resolved (v, cache'), h') →
  cache' !! specifier = Some v
  ∧ cache ⊆ cache'
  ∧ require resolver' baseDir' specifier cache' h'' = (Resolved (v, cache'), h'').
Proof.
  intros Hfirst.
  destruct (require_result _ _ _ _ _ _ _ _ Hfirst) as [Hcached Hgrown].
  split; [done|]. split; [done|].
  unfold require. by rewrite Hcached.
Qed.

Lemma require_remembers_witness :
  require (fun _ _ => reject (ThrownError "unreachable")) None "zod"
    {["zod" := VModule "zod"]} emptyHeap
  = (Resolved (VModule "zod", {["zod" := VModule "zod"]}), emptyHeap).
Proof.
  eapply (require_remembers (ImportMap.resolveCustomToolModule Example.machine 0)
            (fun _ _ => reject (ThrownError "unreachable"))
            None None "zod" ∅ {["zod" := VModule "zod"]}
            (registerCustomToolModuleResolver None emptyHeap).2 _ emptyHeap (VModule "zod")).
  vm_compute. reflexivity.
Defined.

Lemma require_truthy (resolver : string → option string → Async Value)
    (baseDir : option string) (specifier : string)
    (cache cache' : gmap string Value) (h h' : Heap) (v : Value) :
  (∀ k x, cache !! k = Some x → truthy x = true) →
  require resolver baseDir specifier cache h = (Resolved (v, cache'), h') →
  cache ⊆ cache' ∧ ∀ k x, cache' !! k = Some x → truthy x = true.
Proof.
  intros Hcache. unfold require.
  destruct (cache !! specifier) as [cached|] eqn:Hhit.
  { intros [= <- <- <-]. done. }
  unfold bind.
  destruct (callWindowResolver resolver specifier baseDir h) as [[resolved|e|] h1];
    [|done..].
  destruct (truthy resolved) eqn:Htruthy; [|done]. intros [= <- <- <-].
  split; [by apply insert_subseteq|]. intros k x.
  destruct (decide (k = specifier)) as [->|Hne].
  - rewrite lookup_insert_eq. by intros [= <-].
  - rewrite lookup_insert_ne by done. apply Hcache.
Qed.

(** X17: what a module's own cache holds when quiet code has run, code
    that reaches the cache through [__require] only.  Started on the empty
    cache, as [__load] starts it, the code ends with a cache in which every
    module is truthy: a specifier that resolved to nothing is never
    remembered, so requiring it again asks the resolver again.  From any
    cache, the run only adds entries. *)
Theorem run_cache_invariant (resolver : string → option string → Async Value)
    (baseDir : option string) (c : Code) (cache cache' : gmap string Value)
    (h h' : Heap) (v : Value) :
  quiet c →
  run resolver baseDir c cache h = (Resolved (v, cache'), h') →
  cache ⊆ cache'
  ∧ ((∀ k x, cache !! k = Some x → truthy x = true) →
     ∀ k x, cache' !! k = Some x → truthy x = true).
Proof.
  intros Hquiet. revert cache h.
  induction Hquiet as [exports|e|specifier k _ IH]; intros cache h; simpl.
  - intros [= <- <- <-]. done.
  - done.
  - destruct (require resolver baseDir specifier cache h) as [[[x cache1]|e|] h1] eqn:Hreq;
      [| |done].
    + intros Hrun. destruct (IH _ _ _ Hrun) as [Hgrown Htruthy].
      assert (cache ⊆ cache1) as Hfirst
        by (by destruct (require_result _ _ _ _ _ _ _ _ Hreq)).
      split; [by etrans|]. intros Hcache. apply Htruthy.
      by apply (require_truthy resolver baseDir specifier cache cache1 h h1 x Hcache).
    + intros Hrun. by apply (IH _ _ _ Hrun).
Qed.

Lemma run_cache_invariant_witness :
  (∅ : gmap string Value) ⊆ {["zod" := VModule "zod"]}
  ∧ ((∀ k x, (∅ : gmap string Value) !! k = Some x → truthy x = true) →
     ∀ k x, ({["zod" := VModule "zod"]} : gmap string Value) !! k = Some x →
            truthy x = true).
Proof.
  eapply (run_cache_invariant (ImportMap.resolveCustomToolModule Example.machine 0) None
            (Require "zod" (fun r => match r with Ok v => Done v | Throw e => Raise e end))
            ∅ {["zod" := VModule "zod"]}
            (registerCustomToolModuleResolver None emptyHeap).2 _ (VModule "zod")).
  - constructor. intros [v|e]; constructor.
  - vm_compute. reflexivity.
Defined.

(** Code that writes into [__moduleCache] directly is not bound by this:
    it can leave a falsy value there. *)
Example noisy_module_writes_cache :
  (run (ImportMap.resolveCustomToolModule Example.machine 0) None
     Example.writesCache ∅ emptyHeap).1
  = Resolved (VObject [], {["x" := VNumber 0]}).
Proof. vm_compute. reflexivity. Qed.

(** *** The rewriting of [require(] *)

Lemma convert_no_insert (afterWord : bool) (c : ascii) (rest : list ascii) :
  negb afterWord && bool_decide (chars "require(" `prefix_of` c :: rest) = false →
  convert_chars afterWord (c :: rest) = c :: convert_chars (is_word c) rest.
Proof. intros Hno. cbn [convert_chars]. by rewrite Hno. Qed.

Lemma convert_other_char (afterWord : bool) (c : ascii) (rest : list ascii) :
  c ≠ "r"%char →
  convert_chars afterWord (c :: rest) = c :: convert_chars (is_word c) rest.
Proof.
  intros Hc. apply convert_no_insert. apply andb_false_iff. right.
  apply bool_decide_eq_false_2. intros [k Hk]. simpl in Hk. congruence.
Qed.

Lemma convert_after_word (c : ascii) (rest : list ascii) :
  convert_chars true (c :: rest) = c :: convert_chars (is_word c) rest.
Proof. by apply convert_no_insert. Qed.

(** Behind a word character, a text whose characters but the last are
    word characters begins the output exactly when it begins the input. *)
Lemma convert_keeps_word_prefix (word : list ascii) (final : ascii) (s : list ascii) :
  Forall (fun q => is_word q = true) word →
  (word ++ [final]) `prefix_of` convert_chars true s ↔ (word ++ [final]) `prefix_of` s.
Proof.
  intros Hword. revert s. induction Hword as [|q word Hq _ IH]; intros s.
  - destruct s as [|c rest]; [done|]. rewrite convert_after_word. simpl.
    split; intros [k [= <- _]]; by eexists.
  - destruct s as [|c rest]; [done|]. rewrite convert_after_word. simpl.
    split.
    + intros [k Hk]. injection Hk as <- Hk.
      rewrite Hq in Hk. apply prefix_cons, IH. by exists k.
    + intros [k Hk]. injection Hk as <- Hk.
      rewrite Hq. apply prefix_cons, IH. by exists k.
Qed.

Lemma convert_keeps_call_prefix (afterWord : bool) (s : list ascii) :
  negb afterWord && bool_decide (chars "require(" `prefix_of` s) = false →
  chars "require(" `prefix_of` convert_chars afterWord s ↔ chars "require(" `prefix_of` s.
Proof.
  intros Hno. destruct s as [|c rest]; [done|].
  rewrite (convert_no_insert _ _ _ Hno).
  change (chars "require(") with ("r"%char :: chars "equire" ++ ["("%char]).
  assert (Forall (fun q => is_word q = true) (chars "equire")) as Hword
    by (repeat constructor).
  split.
  - intros [k Hk]. injection Hk as Hc Hk. subst c.
    apply prefix_cons. apply (convert_keeps_word_prefix _ _ _ Hword). by exists k.
  - intros [k Hk]. injection Hk as Hc Hk. subst c.
    apply prefix_cons. apply (convert_keeps_word_prefix _ _ _ Hword). by exists k.
Qed.

Lemma convert_chars_idempotent (afterWord : bool) (s : list ascii) :
  convert_chars afterWord (convert_chars afterWord s) = convert_chars afterWord s.
Proof.
  revert afterWord. induction s as [|c rest IH]; intros afterWord; [done|].
  destruct (negb afterWord && bool_decide (chars "require(" `prefix_of` c :: rest))
    eqn:Hmatch.
  - apply andb_true_iff in Hmatch as [Hboundary Hcall].
    apply bool_decide_eq_true in Hcall. destruct Hcall as [k Hk].
    injection Hk as Hc Hk. subst c.
    cbn [convert_chars]. rewrite Hboundary.
    rewrite (bool_decide_eq_true_2 (chars "require(" `prefix_of` "r"%char :: rest))
      by (exists k; by rewrite Hk).
    cbn [andb chars String.list_ascii_of_string app].
    rewrite !convert_other_char by discriminate.
    change (is_word "_") with true. rewrite convert_after_word.
    change (is_word "r") with true. by rewrite IH.
  - rewrite (convert_no_insert _ _ _ Hmatch).
    assert (negb afterWord
            && bool_decide (chars "require(" `prefix_of`
                              c :: convert_chars (is_word c) rest) = false) as Hagain.
    { apply andb_false_iff in Hmatch as [Hboundary|Hcall]; apply andb_false_iff;
        [by left|right].
      apply bool_decide_eq_false_2. apply bool_decide_eq_false_1 in Hcall.
      intros Hprefix. apply Hcall.
      rewrite <- (convert_no_insert afterWord) in Hprefix.
      - apply convert_keeps_call_prefix in Hprefix; [done|].
        apply andb_false_iff. right. by apply bool_decide_eq_false_2.
      - apply andb_false_iff. right. by apply bool_decide_eq_false_2. }
    rewrite (convert_no_insert _ _ _ Hagain). by rewrite IH.
Qed.

Lemma convert_chars_without_call (afterWord : bool) (s : list ascii) :
  (∀ before after, s ≠ before ++ chars "require(" ++ after) →
  convert_chars afterWord s = s.
Proof.
  revert afterWord. induction s as [|c rest IH]; intros afterWord Hnone; [done|].
  rewrite convert_no_insert.
  - f_equal. apply IH. intros before after ->. by apply (Hnone (c :: before) after).
  - apply andb_false_iff. right. apply bool_decide_eq_false_2. intros [k Hk].
    by apply (Hnone [] k).
Qed.

(** X18: two facts about the textual rewriting.  A text in which
    [require(] does not occur is returned as it is; and the rewriting can be
    applied again without effect, because no [require(] of its output
    follows a word boundary: the calls it rewrote are not rewritten twice. *)
Theorem convert_twice_and_without_call (source : string) :
  convertCommonJsToAsyncRequire (convertCommonJsToAsyncRequire source)
  = convertCommonJsToAsyncRequire source
  ∧ ((∀ before after, source ≠ before +:+ "require(" +:+ after) →
     convertCommonJsToAsyncRequire source = source).
Proof.
  unfold convertCommonJsToAsyncRequire. split.
  - by rewrite RegexProofs.chars_of_chars, convert_chars_idempotent.
  - intros Hnone. rewrite convert_chars_without_call.
    + apply String.string_of_list_ascii_of_string.
    + intros before after Heq. apply (Hnone (of_chars before) (of_chars after)).
      rewrite <- (String.string_of_list_ascii_of_string source).
      change (String.list_ascii_of_string source) with (chars source). rewrite Heq.
      rewrite <- (RegexProofs.chars_of_chars before) at 1.
      rewrite <- (RegexProofs.chars_of_chars after) at 1.
      rewrite <- !ImportMapProofs.chars_append.
      by rewrite String.string_of_list_ascii_of_string.
Qed.

Lemma convert_twice_and_without_call_witness :
  convertCommonJsToAsyncRequire "exports.default = {};" = "exports.default = {};".
Proof.
  apply (proj2 (convert_twice_and_without_call "exports.default = {};")).
  intros before after Heq.
  apply (f_equal chars) in Heq. rewrite !ImportMapProofs.chars_append in Heq.
  assert (∀ s : list ascii, (∀ k, ¬ chars "require(" `prefix_of` drop k s) →
            ∀ b a, s ≠ b ++ chars "require(" ++ a) as Hscan.
  { intros s Hs b a ->. apply (Hs (length b)). rewrite drop_app_length. by eexists. }
  revert Heq. apply Hscan. intros k.
  do 22 (destruct k as [|k]; [intros [? [=]]|]). by intros [? [=]].
Defined.

(** *** The window resolver *)

(** X19: the global resolver is installed once, and only on a window.
    While it is not installed, a [__require] of a specifier the module has
    not cached rejects and changes nothing: with a [TypeError] when there
    is a window, since the global is [undefined], and with a
    [ReferenceError] when there is none.  On a window without the resolver,
    [registerCustomToolModuleResolver] installs it with the default base
    directory it is given; without a window it does nothing; and a later
    call with another default changes nothing: the first default stays. *)
Theorem window_resolver_installed_once (resolver : string → option string → Async Value)
    (first second baseDir : option string) (specifier : string)
    (cache : gmap string Value) (h : Heap) :
  (windowResolver h = None → cache !! specifier = None →
   require resolver baseDir specifier cache h
   = (Rejected (if hasWindow h then notAFunction else windowNotDefined), h))
  ∧ (hasWindow h = true → windowResolver h = None →
     registerCustomToolModuleResolver first h
     = (Resolved tt, set_windowResolver (Some first) h))
  ∧ (hasWindow h = false →
     registerCustomToolModuleResolver first h = (Resolved tt, h))
  ∧ registerCustomToolModuleResolver second (registerCustomToolModuleResolver first h).2
    = (Resolved tt, (registerCustomToolModuleResolver first h).2).
Proof.
  split_and!.
  - intros Hnone Hmiss. unfold require. rewrite Hmiss.
    unfold bind at 1, callWindowResolver, bind, get_heap. rewrite Hnone.
    by destruct (hasWindow h).
  - intros Hwindow Hnone. unfold registerCustomToolModuleResolver, bind, get_heap.
    by rewrite Hwindow, Hnone.
  - intros Hwindow. unfold registerCustomToolModuleResolver, bind, get_heap.
    by rewrite Hwindow.
  - unfold registerCustomToolModuleResolver, bind, get_heap.
    destruct (hasWindow h) eqn:Hwindow; cbn; [|by rewrite Hwindow].
    destruct (windowResolver h) as [installed|] eqn:Hresolver; cbn.
    + by rewrite Hwindow, Hresolver.
    + by rewrite Hwindow.
Qed.

Lemma window_resolver_installed_once_witness :
  require (ImportMap.resolveCustomToolModule Example.machine 0) None "zod" ∅ emptyHeap
  = (Rejected notAFunction, emptyHeap)
  ∧ registerCustomToolModuleResolver (Some "/a") emptyHeap
    = (Resolved tt, set_windowResolver (Some (Some "/a")) emptyHeap).
Proof.
  destruct (window_resolver_installed_once
              (ImportMap.resolveCustomToolModule Example.machine 0)
              (Some "/a") None None "zod" ∅ emptyHeap) as (Hrequire & Hinstall & _).
  split; [apply Hrequire | apply Hinstall]; reflexivity.
Defined.

End WrapperExtras.

(** ** The loader's two other patterns *)

Module PatternExtras.
Import JsString Regex Loader RegexProofs LoaderProofs.

(** One alternative of a group, under the [i] flag. *)
Lemma literal_true (alt : list ascii) (k : list ascii → bool) (s : list ascii) :
  Forall (fun p => p ∈ chars "tol.sx-_") alt →
  literal true alt k s = true
  ↔ ∃ s1 s2, s = s1 ++ s2 ∧ lower <$> s1 = alt ∧ k s2 = true.
Proof.
  intros Halt. revert s. induction Halt as [|p alt Hp _ IH]; intros s; simpl.
  - split; [intros Hk; by exists [], s|].
    intros (s1 & s2 & -> & Hs1 & Hk). by apply fmap_nil_inv in Hs1 as ->.
  - destruct s as [|c s].
    + split; [done|]. intros (s1 & s2 & Heq & Hs1 & _).
      symmetry in Heq. apply app_eq_nil in Heq as [-> _]. done.
    + rewrite andb_true_iff, (sameChar_lower p c Hp), IH. split.
      * intros [<- (s1 & s2 & -> & <- & Hk)]. by exists (c :: s1), s2.
      * intros (s1 & s2 & Heq & Hs1 & Hk). destruct s1 as [|c' s1]; [done|].
        simpl in Heq, Hs1. injection Heq as -> ->. injection Hs1 as Hc Hs1.
        split; [done|]. by exists s1, s2.
Qed.

(** [\.(tsx|ts)$] under the [i] flag matches [.ts] and [.tsx], whole. *)
Lemma extensionPattern_match (s : list ascii) :
  matchHere true extensionPattern s = true
  ↔ lower <$> s = chars ".tsx" ∨ lower <$> s = chars ".ts".
Proof.
  assert (Forall (fun p => p ∈ chars "tol.sx-_") (chars "tsx")) as Htsx
    by (repeat constructor; rewrite list_elem_of_In; simpl; tauto).
  assert (Forall (fun p => p ∈ chars "tol.sx-_") (chars "ts")) as Hts
    by (repeat constructor; rewrite list_elem_of_In; simpl; tauto).
  unfold extensionPattern. cbn [matchHere].
  destruct s as [|c s]; [split; [done | intros [?|?]; done]|].
  cbn [accepts existsb]. rewrite andb_true_iff, !orb_true_iff.
  rewrite (sameChar_lower "." c) by (rewrite list_elem_of_In; simpl; tauto).
  rewrite (literal_true _ _ _ Htsx), (literal_true _ _ _ Hts). split.
  - intros [Hc [(s1 & s2 & -> & Hs1 & Hend)|[(s1 & s2 & -> & Hs1 & Hend)|?]]]; [| |done];
      destruct s2; try done; rewrite app_nil_r, fmap_cons, Hc, Hs1; auto.
  - intros [Heq|Heq]; simpl in Heq; injection Heq as Hc Hs; (split; [done|]).
    + left. exists s, []. by rewrite app_nil_r.
    + right. left. exists s, []. by rewrite app_nil_r.
Qed.

Lemma lower_chars (s text : string) :
  toLowerCase s = text → lower <$> chars s = chars text.
Proof. intros <-. unfold toLowerCase. by rewrite chars_of_chars. Qed.

(** X20: [getToolNameFromFile] takes the extension off and nothing else.
    For a name made of a stem and of [.ts] or [.tsx] in any mix of cases it
    gives the stem, also when the stem itself contains such an extension;
    and a name that does not end with one of the two is returned whole. *)
Theorem toolName_is_the_stem (stem ext fileName : string) :
  (toLowerCase ext = ".ts" ∨ toLowerCase ext = ".tsx" →
   getToolNameFromFile (stem +:+ ext) = stem)
  ∧ (endsWith (toLowerCase fileName) ".ts" = false →
     endsWith (toLowerCase fileName) ".tsx" = false →
     getToolNameFromFile fileName = fileName).
Proof.
  unfold getToolNameFromFile, removeToEnd. split.
  - intros Hext.
    assert (lower <$> chars ext = chars ".ts" ∨ lower <$> chars ext = chars ".tsx") as Hlow
      by (destruct Hext as [Hext|Hext]; [left|right]; by apply lower_chars).
    assert (search true extensionPattern (chars (stem +:+ ext)) = Some (length (chars stem)))
      as ->.
    { rewrite ImportMapProofs.chars_append. apply search_Some. split; [|split].
      - rewrite length_app. lia.
      - rewrite drop_app_length. apply extensionPattern_match. tauto.
      - intros m Hm. apply not_true_iff_false. intros Hmatch.
        apply extensionPattern_match in Hmatch.
        rewrite drop_app_le, fmap_app in Hmatch by lia.
        assert (drop m (chars stem) ≠ []) as Hrest.
        { intros Hnil. apply (f_equal length) in Hnil. rewrite length_drop in Hnil.
          simpl in Hnil. lia. }
        destruct (drop m (chars stem)) as [|c [|c' d]]; [done| |];
          destruct Hlow as [Hlow|Hlow]; rewrite Hlow in Hmatch;
          destruct Hmatch as [Hmatch|Hmatch]; simpl in Hmatch;
          first [ congruence
                | apply (f_equal length) in Hmatch; simpl in Hmatch;
                  rewrite ?length_app, ?length_fmap in Hmatch; simpl in Hmatch; lia ]. }
    rewrite ImportMapProofs.chars_append, take_app_length. apply of_chars_inj_chars.
  - intros Hts Htsx.
    assert (search true extensionPattern (chars fileName) = None) as ->; [|done].
    apply search_None. intros m. apply not_true_iff_false. intros Hmatch.
    apply extensionPattern_match in Hmatch.
    assert (∀ text, lower <$> drop m (chars fileName) = chars text →
              endsWith (toLowerCase fileName) text = true) as Hends.
    { intros text Htext. apply bool_decide_eq_true. unfold toLowerCase.
      rewrite chars_of_chars. exists (lower <$> take m (chars fileName)).
      by rewrite <- Htext, <- fmap_app, take_drop. }
    destruct Hmatch as [Hmatch|Hmatch]; apply Hends in Hmatch; congruence.
Qed.

Lemma toolName_is_the_stem_witness :
  getToolNameFromFile "report.ts-tool.TSX" = "report.ts-tool"
  ∧ getToolNameFromFile "notes.txt" = "notes.txt".
Proof.
  split.
  - apply (proj1 (toolName_is_the_stem "report.ts-tool" ".TSX" "")). by right.
  - apply (proj2 (toolName_is_the_stem "" "" "notes.txt")); reflexivity.
Defined.

(** X21: [normalizePathForSuffix] gives the path with every backslash
    turned into a slash and all the slashes at its end taken off, and only
    those: the result followed by some slashes is the path with its
    separators unified; the result contains no backslash and does not end
    with a slash; and normalising it again changes nothing. *)
Theorem normalizePathForSuffix_strips (value : string) :
  (∃ k, chars (slashes value)
        = chars (normalizePathForSuffix value) ++ replicate k "/"%char)
  ∧ endsWith (normalizePathForSuffix value) "/" = false
  ∧ ("\"%char ∉ chars (normalizePathForSuffix value))
  ∧ normalizePathForSuffix (normalizePathForSuffix value) = normalizePathForSuffix value.
Proof.
  unfold normalizePathForSuffix.
  destruct (strip_trailing (slashes value)) as (k & Hparts & Hend).
  set (stripped := removeToEnd false trailingSlashes (slashes value)) in *.
  assert ("\"%char ∉ chars stripped) as Hback.
  { intros Hin.
    assert ("\"%char ∈ chars (slashes value)) as Hin'
      by (rewrite Hparts; apply elem_of_app; by left).
    rewrite slashes_chars in Hin'.
    apply list_elem_of_fmap in Hin' as (c & Hc & _).
    case_bool_decide; [discriminate|]. congruence. }
  assert (slashes stripped = stripped) as Hsame.
  { unfold slashes. rewrite <- (of_chars_inj_chars stripped) at 2. f_equal.
    assert (∀ l : list ascii, "\"%char ∉ l →
              (fun c => if bool_decide (c = "\"%char) then "/"%char else c) <$> l = l)
      as Hmap.
    { induction l as [|c l IH]; [done|]. intros [Hc Hl]%not_elem_of_cons.
      rewrite fmap_cons, bool_decide_eq_false_2 by done. f_equal. by apply IH. }
    by apply Hmap. }
  split; [by exists k|]. split; [|split; [done|]].
  - apply bool_decide_eq_false_2. intros [l Hl]. by apply (Hend l).
  - rewrite Hsame. unfold removeToEnd.
    assert (search false trailingSlashes (chars stripped) = None) as ->; [|done].
    apply search_None. intros m. apply not_true_iff_false. intros Hmatch.
    apply trailingSlashes_match in Hmatch as [Hne Hall].
    destruct (all_slashes_snoc _ Hne Hall) as [l' Hl'].
    apply (Hend (take m (chars stripped) ++ l')).
    by rewrite <- (assoc_L (++)), <- Hl', take_drop.
Qed.

End PatternExtras.

(** ** The loader, further *)

Module LoaderExtras.
Import JsString Loader ResolverExtras.







(** X23: what the per-file isolation does not cover.  When the explicit
    directory cannot be resolved, [loadCustomTools] rejects as a whole, with
    the error of the path call and before anything is scanned or installed;
    and when there is no directory to scan (no explicit directory, no
    workspace root, no home directory) it resolves to the empty list and
    leaves the heap alone: the window resolver is not installed. *)
Theorem load_without_directories (H : Host) (fuel : nat) (options : CustomToolLoadOptions)
    (h : Heap) :
  (∀ custom e,
     given (customDirectory options) = Some custom →
     resolveCustomToolsDirectory H custom = Throw e →
     loadCustomTools H fuel options h = (Rejected e, h))
  ∧ (given (customDirectory options) = None →
     given (workspaceRoot options) = None →
     is_ok (homeDir H) = false ∨ homeDir H = Ok "" →
     loadCustomTools H fuel options h = (Resolved [], h)).
Proof.
  split.
  - intros custom e Hcustom Hresolve.
    unfold loadCustomTools, bind, host, buildDirectories. by rewrite Hcustom, Hresolve.
  - intros Hcustom Hroot Hhome.
    unfold loadCustomTools, bind, host, buildDirectories. rewrite Hcustom, Hroot.
    destruct Hhome as [Hhome| ->]; [|done].
    by destruct (homeDir H).
Qed.

Lemma load_without_directories_witness :
  loadCustomTools
    {| normalize := fun _ => Throw (ThrownError "path error");
       join := join Example.machine; dirname := dirname Example.machine;
       basename := basename Example.machine; homeDir := Throw (ThrownError "no home");
       fs_exists := fs_exists Example.machine; readTextFile := readTextFile Example.machine;
       readDir := readDir Example.machine; dynamicImport := dynamicImport Example.machine;
       internalModuleLoaders := ∅; swc_transform := swc_transform Example.machine;
       evaluate := evaluate Example.machine |}
    1 {| workspaceRoot := Some "/w"; customDirectory := Some "/w" |} emptyHeap
  = (Rejected (ThrownError "path error"), emptyHeap).
Proof.
  apply (proj1 (load_without_directories _ 1
                  {| workspaceRoot := Some "/w"; customDirectory := Some "/w" |} emptyHeap)
           "/w" (ThrownError "path error")); reflexivity.
Defined.

(** *** What loading leaves alone *)

Lemma extending_try_catch {A} (m : Async A) (handler : Thrown → Async A) :
  extending m → (∀ e, extending (handler e)) → extending (try_catch m handler).
Proof.
  intros Hm Hhandler h. unfold try_catch. specialize (Hm h).
  destruct (m h) as [[a|e|] h1]; simpl in *; [done| |done].
  eapply heapExtends_trans; [exact Hm | apply Hhandler].
Qed.

Lemma extending_loadFile (H : Host) (fuel : nat) (entryName filePath toolName : string)
    (src : CustomToolSource) :
  (∀ text, quiet (evaluate H text)) →
  extending (loadFile H fuel entryName filePath toolName src).
Proof.
  intros Hquiet. apply extending_try_catch.
  2: { intros e. apply extending_bind; [apply extending_host | intros; apply extending_ret]. }
  unfold tryLoad.
  apply extending_bind; [apply extending_host|]. intros sourceCode.
  apply extending_bind.
  { apply extending_bind; [apply extending_host | intros; apply extending_ret]. }
  intros compiled.
  apply extending_bind; [apply extending_host|]. intros fileDir.
  apply extending_bind; [apply extending_ret|]. intros moduleUrl.
  apply extending_bind.
  { apply extending_bind; [|intros; apply extending_ret].
    apply extending_bind; [|intros; apply extending_ret].
    apply extending_run; [|apply Hquiet]. intros s b h.
    by apply (resolveCustomToolModule_extends H fuel s b h). }
  intros definition.
  destruct (negb (truthy definition) || negb (typeof_object definition));
    [apply extending_reject|].
  apply extending_bind; [|intros; apply extending_ret].
  destruct (negb (truthy (get_field "name" definition))
            || negb (typeof_string (get_field "name" definition)));
    [|apply extending_ret].
  unfold setName.
  repeat case_match; first [apply extending_ret | apply extending_reject].
Qed.

Lemma loadEntries_extends (H : Host) (fuel : nat) (dirPath : string) (src : CustomToolSource)
    (entries : list DirEntry) (results : list CustomToolLoadResult) (h : Heap) :
  (∀ text, quiet (evaluate H text)) →
  heapExtends h (loadEntries H fuel dirPath src entries results h).2.
Proof.
  intros Hquiet. revert results h.
  induction entries as [|entry entries IH]; intros results h;
    cbn [loadEntries]; [apply heapExtends_refl|].
  destruct (negb (isCandidate entry)); [apply IH|].
  destruct (join H dirPath (entry_name entry)) as [filePath|e]; [|apply heapExtends_refl].
  pose proof (extending_loadFile H fuel (entry_name entry) filePath
                (getToolNameFromFile (entry_name entry)) src Hquiet h) as Hfile.
  destruct (loadFile H fuel (entry_name entry) filePath
              (getToolNameFromFile (entry_name entry)) src h) as [[r|e|] h1];
    simpl in *; [|done..].
  eapply heapExtends_trans; [exact Hfile | apply IH].
Qed.

Lemma scanDirectory_extends (H : Host) (fuel : nat) (dir : Directory)
    (results : list CustomToolLoadResult) (h : Heap) :
  (∀ text, quiet (evaluate H text)) →
  heapExtends h (scanDirectory H fuel dir results h).2.
Proof.
  intros Hquiet. unfold scanDirectory.
  destruct (fs_exists H (path dir)) as [[|]|e]; [|apply heapExtends_refl..].
  destruct (readDir H (path dir)) as [entries|e]; [|apply heapExtends_refl].
  by apply loadEntries_extends.
Qed.

Lemma loadDirectories_extends (H : Host) (fuel : nat) (directories : list Directory)
    (results : list CustomToolLoadResult) (h : Heap) :
  (∀ text, quiet (evaluate H text)) →
  heapExtends h (loadDirectories H fuel directories results h).2.
Proof.
  intros Hquiet. revert results h.
  induction directories as [|dir directories IH]; intros results h;
    cbn [loadDirectories]; [apply heapExtends_refl|].
  pose proof (scanDirectory_extends H fuel dir results h Hquiet) as Hscan.
  destruct (scanDirectory H fuel dir results h) as [[[[]|e|] results1] h1]; simpl in *;
    [| |done].
  - eapply heapExtends_trans; [exact Hscan | apply IH].
  - destruct (errorMessage e); [|done].
    eapply heapExtends_trans; [exact Hscan | apply IH].
Qed.

Lemma loadCustomTools_heap (H : Host) (fuel : nat) (options : CustomToolLoadOptions)
    (h h' : Heap) :
  (∀ text, quiet (evaluate H text)) →
  h' = (loadCustomTools H fuel options h).2 →
  heapExtends h h'
  ∨ (windowResolver h = None ∧ hasWindow h = true
     ∧ heapExtends (set_windowResolver (Some None) h) h').
Proof.
  intros Hquiet. unfold loadCustomTools, bind at 1, host.
  destruct (buildDirectories H options) as [directories|e]; cbn [of_result];
    [|intros ->; left; apply heapExtends_refl].
  destruct (length directories =? 0)%nat; [intros ->; left; apply heapExtends_refl|].
  unfold bind, Compiler.registerCustomToolModuleResolver, bind, get_heap, modify_heap, ret.
  assert (∀ h0 h1,
            h1 = (let (p, h'0) := loadDirectories H fuel directories [] h0 in
                  let (o, results) := p in
                  match o with
                  | Resolved _ => (Resolved results, h'0)
                  | Rejected e => (Rejected e, h'0)
                  | Pending => (Pending, h'0)
                  end).2 →
            heapExtends h0 h1) as Hload.
  { intros h0 h1 ->.
    pose proof (loadDirectories_extends H fuel directories [] h0 Hquiet) as Hload.
    by destruct (loadDirectories H fuel directories [] h0) as [[[[]|e|] results] h1]. }
  destruct (hasWindow h) eqn:Hwindow; cbn [negb].
  - destruct (windowResolver h) as [installed|] eqn:Hresolver.
    + intros Heq. left. by apply Hload.
    + intros Heq. right. split; [done|]. split; [done|]. by apply Hload.
  - intros Heq. left. by apply Hload.
Qed.

(** X24: the loader's own code touches the resolution cache and the
    window resolver only.  When the modules the host runs are quiet,
    whatever the directories hold and however the files fare,
    [loadCustomTools] keeps every key of the resolution cache, leaves the
    registry and the playground resolvers and cache as they were, and
    leaves the window resolver as it was or, on a window where none was
    installed, installs it with no default base directory. *)
Theorem loading_only_extends_cache (H : Host) (fuel : nat) (options : CustomToolLoadOptions)
    (h : Heap) :
  (∀ text, quiet (evaluate H text)) →
  let h' := (loadCustomTools H fuel options h).2 in
  dom (moduleCache h) ⊆ dom (moduleCache h')
  ∧ moduleRegistry h' = moduleRegistry h
  ∧ playgroundResolvers h' = playgroundResolvers h
  ∧ playgroundModuleCache h' = playgroundModuleCache h
  ∧ hasWindow h' = hasWindow h
  ∧ (windowResolver h' = windowResolver h
     ∨ (windowResolver h = None ∧ hasWindow h = true ∧ windowResolver h' = Some None)).
Proof.
  intros Hquiet. cbn zeta.
  destruct (loadCustomTools_heap H fuel options h _ Hquiet eq_refl)
    as [(Hdom & Hreg & Hres & Hcache & Hwin & Hhas)
       |(Hnone & Hwindow & Hdom & Hreg & Hres & Hcache & Hwin & Hhas)].
  - split_and!; [done..|by left].
  - split_and!; [done..|by right].
Qed.

Lemma loading_only_extends_cache_witness :
  let h' := (loadCustomTools Example.machine 1
               {| workspaceRoot := None; customDirectory := Some "/w" |} emptyHeap).2 in
  dom (moduleCache emptyHeap) ⊆ dom (moduleCache h')
  ∧ moduleRegistry h' = moduleRegistry emptyHeap
  ∧ playgroundResolvers h' = playgroundResolvers emptyHeap
  ∧ playgroundModuleCache h' = playgroundModuleCache emptyHeap
  ∧ hasWindow h' = hasWindow emptyHeap
  ∧ (windowResolver h' = windowResolver emptyHeap
     ∨ (windowResolver emptyHeap = None ∧ hasWindow emptyHeap = true
        ∧ windowResolver h' = Some None)).
Proof.
  apply (loading_only_extends_cache Example.machine 1
           {| workspaceRoot := None; customDirectory := Some "/w" |} emptyHeap).
  apply machine_quiet.
Defined.

End LoaderExtras.
